(** * DPERS: covariance estimation for data with missing entries

    A shallow embedding of [src/src/dpers.py] (class [DPERS], methods [fit]
    and [find_cov_ij]) together with the properties of its behaviour.

    - [np.float64] values are the primitive binary64 floats of the standard
      library: NaN, the infinities, signed zeros and rounding are the IEEE
      ones.
    - Python exceptions are an explicit error result.
    - The attributes [self.Xtrain] and [self.cov] are an explicit state that
      [fit] threads.
    - The two numerical kernels of numpy that have no counterpart on
      primitive floats, the natural logarithm and LAPACK's eigenvalue
      routine, are variables of the section that holds the code. *)

From Stdlib Require Import ZArith List Bool Lia Floats Uint63 QArith Qfield.
Import ListNotations.
Close Scope Q_scope.

(** ** Exceptions *)

Inductive exn : Type :=
| AssertionError   (* [assert ..., ValueError("Expected 2D numpy array")] *)
| ValueError       (* [np.argmax] of an empty sequence *)
| LinAlgError.     (* [np.linalg.eigvals]: "Array must not contain infs or NaNs" *)

Inductive result (A : Type) : Type :=
| Ok (a : A)
| Raise (e : exn).

Arguments Ok {A} a.
Arguments Raise {A} e.

Definition bind {A B : Type} (r : result A) (k : A -> result B) : result B :=
  match r with
  | Ok a => k a
  | Raise e => Raise e
  end.

Notation "x <- r ;; k" := (bind r (fun x => k))
  (at level 61, r at next level, right associativity).

Definition raises {A : Type} (r : result A) : bool :=
  match r with
  | Ok _ => false
  | Raise _ => true
  end.

(** ** float64 scalars *)

Module F64.

(** Python's [x != y] on floats: true as soon as one side is NaN. *)
Definition ne (x y : float) : bool := negb (x =? y)%float.

(** [np.isnan]. *)
Definition isnan (x : float) : bool := PrimFloat.is_nan x.

(** [np.isfinite]. *)
Definition isfinite (x : float) : bool :=
  negb (PrimFloat.is_nan x || PrimFloat.is_infinity x).

(** Conversion of a Python/numpy integer to float64 (exact below 2^53).
    The integer zero has no sign, so [of_int (- 0)] is [+0.0]. *)
Definition of_int (z : Z) : float :=
  if (z <? 0)%Z then (- PrimFloat.of_uint63 (Uint63.of_Z (- z)))%float
  else PrimFloat.of_uint63 (Uint63.of_Z z).

Definition of_nat (n : nat) : float := of_int (Z.of_nat n).

End F64.

(** ** Arrays *)

(** An [np.ndarray] of dtype float64: its shape and its row-major buffer. *)
Record ndarray : Type := mkArray {
  shape : list nat;
  buf : list float
}.

(** [np.ndim]. *)
Definition ndim (X : ndarray) : nat := length (shape X).

(** A square matrix as the list of its rows. *)
Definition matrix : Type := list (list float).

(** [A[i, j]] *)
Definition mget (A : matrix) (i j : nat) : float :=
  nth j (nth i A []) 0%float.

(** Replacement of the element of index [k]; the code only writes in range. *)
Fixpoint upd {A : Type} (k : nat) (v : A) (l : list A) : list A :=
  match l, k with
  | [], _ => []
  | _ :: t, O => v :: t
  | x :: t, S k' => x :: upd k' v t
  end.

(** [A[i, j] = v] *)
Definition mset (A : matrix) (i j : nat) (v : float) : matrix :=
  upd i (upd j v (nth i A [])) A.

(** The [p] by [p] matrix whose entry [(i, j)] is [f i j]. *)
Definition tabulate (p : nat) (f : nat -> nat -> float) : matrix :=
  map (fun i => map (fun j => f i j) (seq 0 p)) (seq 0 p).

(** [np.zeros((p, p))] *)
Definition zeros (p : nat) : matrix := tabulate p (fun _ _ => 0%float).

(** [A.T] *)
Definition transpose (p : nat) (A : matrix) : matrix :=
  tabulate p (fun i j => mget A j i).

(** [A + B], element by element *)
Definition madd (p : nat) (A B : matrix) : matrix :=
  tabulate p (fun i j => (mget A i j + mget B i j)%float).

(** [X[r, c]] for a two-dimensional [X] with [p] columns. *)
Definition item2 (X : ndarray) (p r c : nat) : float :=
  nth (r * p + c) (buf X) nan.

(** [X[:, i]] *)
Definition column (X : ndarray) (n p i : nat) : list float :=
  map (fun r => item2 X p r i) (seq 0 n).

(** [X[:, [i, j]]]: the rows of the two-column sub-table. *)
Definition columns2 (X : ndarray) (n p i j : nat) : list (float * float) :=
  map (fun r => (item2 X p r i, item2 X p r j)) (seq 0 n).

(** ** numpy reductions *)

(** [np.sum] of a one-dimensional contiguous float64 array is
    [np.add.reduce]: the result starts as the identity [0.0] and the inner
    loop, called once for the whole array, adds to it the pairwise sum of
    the elements (numpy 1.x, [DOUBLE_pairwise_sum] in
    umath/loops_utils.h.src). *)

(** The plain loop [res += a[i]]. *)
Definition sum_loop (res : float) (xs : list float) : float :=
  fold_left PrimFloat.add xs res.

(** From 8 to 128 elements: eight accumulators [r[0..7]] start as the first
    eight elements and receive the following blocks of eight elements;
    they are added as [((r0+r1)+(r2+r3))+((r4+r5)+(r6+r7))] and the
    [n % 8] elements that are left are added one by one. *)
Definition add_block (r blk : list float) : list float :=
  map (fun ab => (fst ab + snd ab)%float) (combine r blk).

Fixpoint accumulate (blocks : nat) (r xs : list float) : list float * list float :=
  match blocks with
  | 0 => (r, xs)
  | S k => accumulate k (add_block r (firstn 8 xs)) (skipn 8 xs)
  end.

Definition unrolled_sum (xs : list float) : float :=
  let '(r, rest) := accumulate (length xs / 8 - 1) (firstn 8 xs) (skipn 8 xs) in
  let r_ := fun i : nat => nth i r 0%float in
  sum_loop (((r_ 0%nat + r_ 1%nat) + (r_ 2%nat + r_ 3%nat))
            + ((r_ 4%nat + r_ 5%nat) + (r_ 6%nat + r_ 7%nat)))%float rest.

(** [DOUBLE_pairwise_sum]: below eight elements the plain loop, started at
    [-0.0]; above 128 elements the array is cut at [n2 = n / 2 - (n / 2) % 8]
    and the sums of the two parts are added. [depth] bounds the nesting of
    the recursive calls; the length of the array is enough, since both
    parts are shorter than the array. *)
Fixpoint pairwise_sum_rec (depth : nat) (xs : list float) : float :=
  let n := length xs in
  if Nat.ltb n 8 then sum_loop (-0)%float xs
  else if Nat.leb n 128 then unrolled_sum xs
  else
    match depth with
    | 0 => unrolled_sum xs
    | S d =>
        let n2 := n / 2 - (n / 2) mod 8 in
        (pairwise_sum_rec d (firstn n2 xs) + pairwise_sum_rec d (skipn n2 xs))%float
    end.

Definition pairwise_sum (xs : list float) : float :=
  pairwise_sum_rec (length xs) xs.

Definition np_sum (xs : list float) : float :=
  (0 + pairwise_sum xs)%float.

(** [np.var] with its default [ddof = 0]: the mean of the squared deviations
    from the mean, both means being a sum divided by the number of elements.
    On an empty array both divisions are [0.0 / 0]. *)
Definition np_var (xs : list float) : float :=
  let cnt := F64.of_nat (length xs) in
  let arrmean := (np_sum xs / cnt)%float in
  let x := map (fun a => (a - arrmean)%float) xs in
  (np_sum (map (fun d => (d * d)%float) x) / cnt)%float.

(** The scan of [np.argmax] over float64: the running maximum is replaced by
    every element that is not [<=] to it, and the scan stops at a NaN. *)
Fixpoint argmax_from (bi : nat) (best : float) (i : nat) (xs : list float) : nat :=
  match xs with
  | [] => bi
  | x :: t =>
      if negb (x <=? best)%float then
        if F64.isnan x then i else argmax_from i x (S i) t
      else argmax_from bi best (S i) t
  end.

(** [np.argmax]: "attempt to get argmax of an empty sequence" is a
    [ValueError]. *)
Definition np_argmax (xs : list float) : result nat :=
  match xs with
  | [] => Raise ValueError
  | x :: t => Ok (if F64.isnan x then 0 else argmax_from 0 x 1 t)
  end.

(** ** The estimator *)

(** The attributes of a [DPERS] object. *)
Record DPERS : Type := mkDPERS {
  Xtrain : option ndarray;
  cov : option matrix
}.

(** [DPERS.__init__] *)
Definition init : DPERS := mkDPERS None None.

(** [~np.isnan(x_i)] as a mask on a column. *)
Definition observed (xs : list float) : list float :=
  filter (fun x => negb (F64.isnan x)) xs.

(** [np.isnan(X_ij).all(1)]: both entries of the row are missing. *)
Definition all_missing (row : float * float) : bool :=
  F64.isnan (fst row) && F64.isnan (snd row).

(** [np.isnan(X_ij).any(-1)]: some entry of the row is missing. *)
Definition any_missing (row : float * float) : bool :=
  F64.isnan (fst row) || F64.isnan (snd row).

(** The list [upper_idx] built from [np.triu_indices(p, 1)]: the pairs
    [i < j], row by row. *)
Definition upper_idx (p : nat) : list (nat * nat) :=
  flat_map (fun i => map (fun j => (i, j)) (seq (S i) (p - S i))) (seq 0 p).

Section Solver.

(** [np.log] on a float64 scalar. *)
Variable np_log : float -> float.

(** [np.linalg.eigvals] on a finite real square matrix: the eigenvalues,
    as pairs (real part, imaginary part). *)
Variable eigvals : matrix -> list (float * float).

(** [np.linalg.eigvals] with its check [_assert_finite]. *)
Definition linalg_eigvals (A : matrix) : result (list (float * float)) :=
  if forallb (forallb F64.isfinite) A then Ok (eigvals A)
  else Raise LinAlgError.

(** [numpy.roots] (numpy 1.x, lib/polynomial.py) on the coefficients [c],
    highest degree first: an all-zero input has no roots; leading and
    trailing zeros are stripped, the trailing ones counting as roots at
    zero; the other roots are the eigenvalues of the companion matrix
    [A = diag(ones(N-2), -1); A[0, :] = -c[1:] / c[0]]. *)
Fixpoint strip_leading (c : list float) : list float :=
  match c with
  | [] => []
  | x :: t => if F64.ne x 0 then c else strip_leading t
  end.

Definition companion (c : list float) : matrix :=
  match c with
  | [] => []
  | c0 :: cs =>
      let N1 := length cs in
      tabulate N1 (fun i j =>
        if Nat.eqb i 0 then (- nth j cs 0 / c0)%float
        else if Nat.eqb i (S j) then 1%float else 0%float)
  end.

Definition np_roots (c : list float) : result (list (float * float)) :=
  let lead := strip_leading c in
  match lead with
  | [] => Ok []
  | _ =>
      let core := rev (strip_leading (rev lead)) in
      let trailing_zeros := length lead - length core in
      roots <- (if Nat.ltb 1 (length core) then linalg_eigvals (companion core)
                else Ok []) ;;
      Ok (roots ++ repeat (0%float, 0%float) trailing_zeros)
  end.

(** [np.real] *)
Definition np_real (zs : list (float * float)) : list float := map fst zs.

(** The number of jointly observed rows and the three raw second moments
    (lines 89-99). *)
Definition complete (X_ij : list (float * float)) : list (float * float) :=
  filter (fun row => negb (any_missing row)) X_ij.

Definition count_m (X_ij : list (float * float)) : Z :=
  Z.of_nat (length (complete X_ij)).

Definition sum11 (X_ij : list (float * float)) : float :=
  np_sum (map (fun row => (fst row * fst row)%float) (complete X_ij)).

Definition sum22 (X_ij : list (float * float)) : float :=
  np_sum (map (fun row => (snd row * snd row)%float) (complete X_ij)).

Definition sum12 (X_ij : list (float * float)) : float :=
  np_sum (map (fun row => (fst row * snd row)%float) (complete X_ij)).

(** The coefficient array of lines 103-108, after the reversal [[::-1]]:
    highest degree first. *)
Definition coef (m : Z) (s11 s22 s12 S_ii S_jj : float) : list float :=
  rev [ (s12 * S_ii * S_jj)%float;
        (F64.of_int m * S_ii * S_jj - s22 * S_ii - s11 * S_jj)%float;
        s12;
        F64.of_int (- m) ].

(** Line 113, for one candidate. *)
Definition scond_of (S_ii S_jj r : float) : float :=
  (S_jj - r * r / S_ii)%float.

(** [np.log(scond, out = -inf, where = scond > 0)], for one candidate. *)
Definition masked_log (sc : float) : float :=
  if (0 <? sc)%float then np_log sc else neg_infinity.

(** Lines 115-119, for one candidate. *)
Definition eta (m : Z) (s11 s12 S_ii S_jj r : float) : float :=
  let sc := scond_of S_ii S_jj r in
  (F64.of_int (- m) * masked_log sc
   - (S_jj - 2 * r / S_ii * s12 + r * r / (S_ii * S_ii) * s11) / sc)%float.

(** [DPERS.find_cov_ij] *)
Definition find_cov_ij (X_ij : list (float * float)) (S_ii S_jj : float)
  : result float :=
  let m := count_m X_ij in
  let s11 := sum11 X_ij in
  let s22 := sum22 X_ij in
  let s12 := sum12 X_ij in
  zs <- np_roots (coef m s11 s22 s12 S_ii S_jj) ;;
  let roots := np_real zs in
  let etas := map (eta m s11 s12 S_ii S_jj) roots in
  k <- np_argmax etas ;;
  Ok (nth k roots nan).

(** Lines 40-43: the diagonal of [S] receives the variances. *)
Definition variance_of (X : ndarray) (n p i : nat) : float :=
  np_var (observed (column X n p i)).

Definition fill_diagonal (X : ndarray) (n p : nat) (S0 : matrix) : matrix :=
  fold_left (fun S i => mset S i i (variance_of X n p i)) (seq 0 p) S0.

(** Lines 51-55: the two columns, without the rows where both are missing. *)
Definition pair_rows (X : ndarray) (n p i j : nat) : list (float * float) :=
  filter (fun row => negb (all_missing row)) (columns2 X n p i j).

(** What the iteration for the pair [(i, j)] computes from the diagonal of
    [M], before it stores it at [(i, j)]. *)
Definition cell (X : ndarray) (n p : nat) (M : matrix) (i j : nat) : result float :=
  if F64.ne (mget M i i) 0 && F64.ne (mget M j j) 0 then
    find_cov_ij (pair_rows X n p i j) (mget M i i) (mget M j j)
  else Ok nan.

(** Lines 57-61: one iteration of the loop over the upper triangle. *)
Definition pair_step (X : ndarray) (n p : nat) (S : matrix) (ij : nat * nat)
  : result matrix :=
  let '(i, j) := ij in
  let X_ij := pair_rows X n p i j in
  let S_ii := mget S i i in
  let S_jj := mget S j j in
  if F64.ne S_ii 0 && F64.ne S_jj 0 then
    r <- find_cov_ij X_ij S_ii S_jj ;;
    Ok (mset S i j r)
  else Ok (mset S i j nan).

(** Lines 50-61: the loop, left at the first exception. *)
Fixpoint pair_loop (X : ndarray) (n p : nat) (idx : list (nat * nat))
  (S : matrix) : result matrix :=
  match idx with
  | [] => Ok S
  | ij :: rest =>
      S' <- pair_step X n p S ij ;;
      pair_loop X n p rest S'
  end.

(** Lines 66-67: the diagonal is halved. *)
Definition halve_diagonal (p : nat) (S0 : matrix) : matrix :=
  fold_left (fun S i => mset S i i (mget S i i * 0.5)%float) (seq 0 p) S0.

(** Lines 63-67. *)
Definition symmetrize (p : nat) (S : matrix) : matrix :=
  halve_diagonal p (madd p S (transpose p S)).

(** [DPERS.fit]: the new state of the object and the value returned or the
    exception raised. *)
Definition fit (self : DPERS) (X : ndarray) : DPERS * result matrix :=
  match shape X with
  | [n; p] =>
      let self1 := mkDPERS (Some X) (cov self) in
      let S := fill_diagonal X n p (zeros p) in
      match pair_loop X n p (upper_idx p) S with
      | Ok S' =>
          let S'' := symmetrize p S' in
          (mkDPERS (Some X) (Some S''), Ok S'')
      | Raise e => (self1, Raise e)
      end
  | _ => (self, Raise AssertionError)
  end.

End Solver.

(** ** Auxiliary definitions *)

(** A [p] by [p] matrix. *)
Definition square (p : nat) (A : matrix) : Prop :=
  length A = p /\ forall i, i < p -> length (nth i A []) = p.

(** Both loops over the diagonal (lines 40-43 and 66-67) replace [S[i, i]]
    by a value computed from [i] and from the old [S[i, i]]. *)
Definition diag_update (h : nat -> float -> float) (S : matrix) (i : nat) : matrix :=
  mset S i i (h i (mget S i i)).

(** A finite value of the specification of float64: a zero or a finite
    float. *)
Definition sf_finite (f : spec_float) : bool :=
  match f with
  | S754_zero _ | S754_finite _ _ _ => true
  | S754_infinity _ | S754_nan => false
  end.

(** The sum [v + v] is infinite although [v] is finite. *)
Definition doubling_overflows (v : float) : bool :=
  F64.isfinite v && negb (F64.isfinite (v + v)%float).

(** Rounding a mantissa that is [m] followed by [k] zero bits, when [m]
    is canonical [k] exponents higher: the zero bits are shifted out. *)
Definition shifted_out (k : positive) : Prop :=
  forall s m e,
    fexp prec emax (Zpos (digits2_pos m) + e)%Z = e ->
    binary_round_aux prec emax s (Zpos (Pos.iter xO m k)) (e - Zpos k)%Z loc_Exact
    = if (e <=? 971)%Z then S754_finite s m e else S754_infinity s.









(** ** Instances of the numpy kernels for closed examples *)

(** A logarithm that is exact at [1.0] and undefined elsewhere. *)
Definition log_at_one (x : float) : float :=
  if (x =? 1)%float then 0%float else nan.

(** An eigenvalue routine for examples that never reach it. *)
Definition eig_unreached (A : matrix) : list (float * float) := [].

(** Two rows, two features; the second feature is constant. *)
Definition X_const : ndarray := mkArray [2; 2] [1; 2; 2; 2]%float.

(** A one-dimensional array. *)
Definition X_flat : ndarray := mkArray [3] [1; 3; 4]%float.

(** Two features that are never observed together. *)
Definition X_disjoint : ndarray :=
  mkArray [4; 2] [1; nan; 2; nan; nan; 3; nan; 5]%float.

(** The first feature is missing in every row. *)
Definition X_missing : ndarray := mkArray [2; 2] [nan; 1; nan; 2]%float.

(** A table of logarithms for closed examples. *)
Definition log_example (x : float) : float :=
  if (x =? 1)%float then 0%float
  else if (x =? 0.5)%float then (-0x1.62e42fefa39efp-1)%float
  else nan.

(** The roots of [-2 r^3 - 12 r^2 - 34 r - 24 = -2 (r + 1) (r^2 + 5 r + 12)]:
    a complex pair of real part [-2.5], and [-1]. *)
Definition eig_example (A : matrix) : list (float * float) :=
  [(-2.5, 0x1.32eee75770416p+1); (-2.5, -0x1.32eee75770416p+1); (-1, 0)]%float.

(** Three rows, two features; the second feature is missing in the last
    row. The variances are [2.0] and [1.0]. *)
Definition X_slip : ndarray := mkArray [3; 2] [-3; 3; -3; 1; 0; nan]%float.

(** ** Definitions for the further properties *)

(** What the iteration of lines 57-61 computes for the pair [(i, j)], the
    diagonal of [S] holding the variances: the result of [find_cov_ij] if
    both variances are different from zero, NaN otherwise. *)
Definition pair_value (np_log : float -> float) (eigvals : matrix -> list (float * float))
  (X : ndarray) (n p i j : nat) : result float :=
  if F64.ne (variance_of X n p i) 0 && F64.ne (variance_of X n p j) 0 then
    find_cov_ij np_log eigvals (pair_rows X n p i j)
      (variance_of X n p i) (variance_of X n p j)
  else Ok nan.

(** A table with three features and no row. *)
Definition X_empty : ndarray := mkArray [0; 3] [].

(** Three rows, one feature. *)
Definition X_column : ndarray := mkArray [3; 1] [1; nan; 3]%float.

(** The order of float64 on the values that are not NaN, as a
    lexicographic order on triples of integers: the class (negative
    infinity, negative, zero, positive, positive infinity), then the
    exponent and the mantissa (negated for the negative floats). *)
Definition sf_key (f : spec_float) : Z * Z * Z :=
  match f with
  | S754_infinity true => (-2, 0, 0)%Z
  | S754_finite true m e => (-1, - e, - Zpos m)%Z
  | S754_zero _ => (0, 0, 0)%Z
  | S754_finite false m e => (1, e, Zpos m)%Z
  | S754_infinity false => (2, 0, 0)%Z
  | S754_nan => (3, 0, 0)%Z
  end.

Definition lex_le (a b : Z * Z * Z) : Prop :=
  (fst (fst a) < fst (fst b) \/
   (fst (fst a) = fst (fst b) /\
    (snd (fst a) < snd (fst b) \/ (snd (fst a) = snd (fst b) /\ snd a <= snd b))))%Z.

Definition lex_lt (a b : Z * Z * Z) : Prop :=
  (fst (fst a) < fst (fst b) \/
   (fst (fst a) = fst (fst b) /\
    (snd (fst a) < snd (fst b) \/ (snd (fst a) = snd (fst b) /\ snd a < snd b))))%Z.

(** The key of a float64. *)
Definition fkey (x : float) : Z * Z * Z := sf_key (Prim2SF x).

(** The coefficients and the objective of [find_cov_ij] for given rows and
    variances (lines 95-108 and 113-119). *)
Definition solver_coef (X_ij : list (float * float)) (S_ii S_jj : float) : list float :=
  coef (count_m X_ij) (sum11 X_ij) (sum22 X_ij) (sum12 X_ij) S_ii S_jj.

Definition objective (np_log : float -> float) (X_ij : list (float * float))
  (S_ii S_jj r : float) : float :=
  eta np_log (count_m X_ij) (sum11 X_ij) (sum12 X_ij) S_ii S_jj r.

(** The sign bit of a float is clear, or the float is NaN. *)
Definition sign_clear (x : spec_float) : bool :=
  match x with
  | S754_zero s | S754_infinity s | S754_finite s _ _ => negb s
  | S754_nan => true
  end.

(** A stand-in for [eigvals] with the right number of values: the diagonal
    of the matrix (its eigenvalues when it is triangular). *)
Definition eig_diagonal (A : matrix) : list (float * float) :=
  map (fun i => (mget A i i, 0%float)) (seq 0 (length A)).

(** * Properties *)

(** ** Lists and matrices *)

Lemma upd_length {A : Type} (k : nat) (v : A) (l : list A) :
  length (upd k v l) = length l.
Proof.
  revert k; induction l as [|x t IH]; intros [|k]; simpl; auto.
Qed.

Lemma upd_beyond {A : Type} (k : nat) (v : A) (l : list A) :
  length l <= k -> upd k v l = l.
Proof.
  revert k; induction l as [|x t IH]; intros [|k] H; simpl in *; auto; try lia.
  f_equal. apply IH. lia.
Qed.

Lemma nth_upd_same {A : Type} (k : nat) (v d : A) (l : list A) :
  k < length l -> nth k (upd k v l) d = v.
Proof.
  revert k; induction l as [|x t IH]; intros [|k] H; simpl in *; try lia; auto.
  apply IH; lia.
Qed.

Lemma nth_upd_other {A : Type} (k k' : nat) (v d : A) (l : list A) :
  k <> k' -> nth k' (upd k v l) d = nth k' l d.
Proof.
  revert k k'; induction l as [|x t IH]; intros [|k] [|k'] H; simpl; auto; try lia.
Qed.


Lemma mget_mset_same p A i j v :
  square p A -> i < p -> j < p -> mget (mset A i j v) i j = v.
Proof.
  intros [HA Hrow] Hi Hj. unfold mget, mset.
  rewrite nth_upd_same by lia. apply nth_upd_same. rewrite Hrow; lia.
Qed.

Lemma mget_mset_other A i j a b v :
  (a, b) <> (i, j) -> mget (mset A i j v) a b = mget A a b.
Proof.
  intros H. unfold mget, mset.
  destruct (Nat.eq_dec i a) as [->|Hia].
  - destruct (Nat.lt_ge_cases a (length A)) as [Hlt|Hge].
    + rewrite nth_upd_same by assumption.
      apply nth_upd_other. intros ->. apply H; reflexivity.
    + rewrite upd_beyond by assumption. reflexivity.
  - rewrite nth_upd_other by assumption. reflexivity.
Qed.

Lemma square_mset p A i j v : square p A -> square p (mset A i j v).
Proof.
  intros [HA Hrow]. unfold mset. split.
  - rewrite upd_length. exact HA.
  - intros a Ha. destruct (Nat.eq_dec i a) as [->|Hia].
    + rewrite nth_upd_same by lia. rewrite upd_length. auto.
    + rewrite nth_upd_other by assumption. auto.
Qed.

Lemma nth_map_seq {A : Type} (f : nat -> A) (d : A) (p i : nat) :
  i < p -> nth i (map f (seq 0 p)) d = f i.
Proof.
  intros H. rewrite (nth_indep _ d (f 0)) by (rewrite length_map, length_seq; exact H).
  rewrite (map_nth f (seq 0 p) 0 i). rewrite seq_nth by exact H. reflexivity.
Qed.

Lemma mget_tabulate p f i j : i < p -> j < p -> mget (tabulate p f) i j = f i j.
Proof.
  intros Hi Hj. unfold mget, tabulate.
  rewrite (nth_map_seq (fun i => map (fun j => f i j) (seq 0 p))) by exact Hi.
  apply (nth_map_seq (fun j => f i j)). exact Hj.
Qed.

Lemma square_tabulate p f : square p (tabulate p f).
Proof.
  unfold tabulate. split.
  - rewrite length_map, length_seq. reflexivity.
  - intros i Hi.
    rewrite (nth_map_seq (fun i => map (fun j => f i j) (seq 0 p))) by exact Hi.
    rewrite length_map, length_seq. reflexivity.
Qed.

(** ** The index list of the upper triangle *)

Lemma in_upper_idx p i j : In (i, j) (upper_idx p) <-> i < j /\ j < p.
Proof.
  unfold upper_idx. rewrite in_flat_map. split.
  - intros [a [Ha Hin]]. apply in_map_iff in Hin. destruct Hin as [b [Heq Hb]].
    inversion Heq; subst. apply in_seq in Ha. apply in_seq in Hb. lia.
  - intros [Hij Hj]. exists i. split.
    + apply in_seq. lia.
    + apply in_map_iff. exists j. split; [reflexivity|]. apply in_seq. lia.
Qed.

Lemma NoDup_map_pair (i : nat) (l : list nat) :
  NoDup l -> NoDup (map (fun j => (i, j)) l).
Proof.
  induction 1 as [|b l Hb Hl IH]; simpl; constructor; auto.
  intros Hin. apply in_map_iff in Hin. destruct Hin as [c [Heq Hc]].
  inversion Heq; subst. contradiction.
Qed.

Lemma NoDup_flat_map_fst (f : nat -> list nat) (l : list nat) :
  NoDup l -> (forall i, NoDup (f i)) ->
  NoDup (flat_map (fun i => map (fun j => (i, j)) (f i)) l).
Proof.
  intros Hl Hf. induction Hl as [|a l Ha Hl IH]; simpl.
  - constructor.
  - apply NoDup_app.
    + apply NoDup_map_pair. apply Hf.
    + exact IH.
    + intros [x y] Hin1 Hin2. apply in_map_iff in Hin1.
      destruct Hin1 as [b [Heq _]]. inversion Heq; subst.
      apply in_flat_map in Hin2. destruct Hin2 as [c [Hc Hin2]].
      apply in_map_iff in Hin2. destruct Hin2 as [d [Heq2 _]].
      inversion Heq2; subst. contradiction.
Qed.

Lemma NoDup_upper_idx p : NoDup (upper_idx p).
Proof.
  apply NoDup_flat_map_fst.
  - apply seq_NoDup.
  - intros i. apply seq_NoDup.
Qed.

(** ** Loops over the diagonal *)


Lemma fold_diag_update p h len : forall a M,
  square p M -> a + len <= p ->
  let R := fold_left (diag_update h) (seq a len) M in
  square p R /\
  (forall i j, i <> j -> mget R i j = mget M i j) /\
  (forall i, a <= i < a + len -> mget R i i = h i (mget M i i)) /\
  (forall i, ~ (a <= i < a + len) -> mget R i i = mget M i i).
Proof.
  induction len as [|len IH]; intros a M HS Hle; simpl.
  - split; [exact HS|]. split; [reflexivity|]. split; [intros i Hi; lia|reflexivity].
  - assert (HS1 : square p (diag_update h M a)) by (apply square_mset; exact HS).
    destruct (IH (S a) (diag_update h M a) HS1 ltac:(lia)) as (Hsq & Hoff & Hin & Hout).
    split; [exact Hsq|]. split; [|split].
    + intros i j Hij. rewrite Hoff by exact Hij.
      apply mget_mset_other. intros Heq; inversion Heq; lia.
    + intros i Hi. destruct (Nat.eq_dec i a) as [->|Hia].
      * rewrite Hout by lia. unfold diag_update.
        apply (mget_mset_same p); [exact HS|lia|lia].
      * rewrite Hin by lia. f_equal. unfold diag_update.
        apply mget_mset_other. intros Heq; inversion Heq; lia.
    + intros i Hi. rewrite Hout by lia. unfold diag_update.
      apply mget_mset_other. intros Heq; inversion Heq; lia.
Qed.

(** ** The loop over the upper triangle *)

Section Loop.

Variable np_log : float -> float.
Variable eigvals : matrix -> list (float * float).
Variable X : ndarray.
Variables n p : nat.


Lemma pair_step_cell M i j :
  pair_step np_log eigvals X n p M (i, j) = (r <- cell np_log eigvals X n p M i j ;; Ok (mset M i j r)).
Proof.
  unfold pair_step, cell.
  destruct (F64.ne (mget M i i) 0 && F64.ne (mget M j j) 0); reflexivity.
Qed.

Lemma cell_mset M i j a b v : a <> b -> cell np_log eigvals X n p (mset M a b v) i j = cell np_log eigvals X n p M i j.
Proof.
  intros Hab. unfold cell.
  rewrite !mget_mset_other by (intros Heq; inversion Heq; lia).
  reflexivity.
Qed.

Lemma pair_loop_ok idx : forall M M',
  square p M ->
  (forall i j, In (i, j) idx -> i < j /\ j < p) ->
  NoDup idx ->
  pair_loop np_log eigvals X n p idx M = Ok M' ->
  square p M' /\
  (forall a b, ~ In (a, b) idx -> mget M' a b = mget M a b) /\
  (forall i j, In (i, j) idx -> cell np_log eigvals X n p M i j = Ok (mget M' i j)).
Proof.
  induction idx as [|[i j] rest IH]; intros M M' HM Hidx Hnd Hloop; cbn [pair_loop] in Hloop.
  - inversion Hloop; subst. split; [exact HM|]. split; [reflexivity|].
    intros i j [].
  - rewrite pair_step_cell in Hloop.
    destruct (cell np_log eigvals X n p M i j) as [r|e] eqn:Hcell; simpl in Hloop; [|discriminate].
    destruct (Hidx i j (or_introl eq_refl)) as [Hij Hj].
    inversion Hnd as [|? ? Hnotin Hnd']; subst.
    destruct (IH (mset M i j r) M' (square_mset p M i j r HM)
                 (fun a b H => Hidx a b (or_intror H)) Hnd' Hloop)
      as (Hsq & Hout & Hin).
    split; [exact Hsq|]. split.
    + intros a b Hab. rewrite Hout by (intros H; apply Hab; right; exact H).
      apply mget_mset_other. intros Heq. apply Hab. left. congruence.
    + intros a b [Heq|Hab].
      * inversion Heq; subst a b. rewrite Hout by exact Hnotin.
        rewrite (mget_mset_same p) by (assumption || lia). exact Hcell.
      * rewrite <- (Hin a b Hab). symmetry. apply cell_mset. lia.
Qed.

Lemma pair_loop_total idx : forall M,
  (forall i j, In (i, j) idx -> i < j) ->
  (forall i j, In (i, j) idx -> raises (cell np_log eigvals X n p M i j) = false) ->
  exists M', pair_loop np_log eigvals X n p idx M = Ok M'.
Proof.
  induction idx as [|[i j] rest IH]; intros M Hlt Hok; cbn [pair_loop].
  - exists M. reflexivity.
  - rewrite pair_step_cell.
    pose proof (Hok i j (or_introl eq_refl)) as Hc.
    destruct (cell np_log eigvals X n p M i j) as [r|e]; simpl in *; [|discriminate].
    apply IH.
    + intros a b H. apply (Hlt a b). right; exact H.
    + intros a b H. rewrite cell_mset by (specialize (Hlt i j (or_introl eq_refl)); lia).
      apply Hok. right; exact H.
Qed.

Lemma pair_loop_raises idx : forall M i j e,
  (forall a b, In (a, b) idx -> a < b) ->
  In (i, j) idx -> cell np_log eigvals X n p M i j = Raise e ->
  raises (pair_loop np_log eigvals X n p idx M) = true.
Proof.
  induction idx as [|[a b] rest IH]; intros M i j e Hlt Hin Hc; cbn [pair_loop].
  - destruct Hin.
  - rewrite pair_step_cell.
    destruct (cell np_log eigvals X n p M a b) as [r|e'] eqn:Hab; simpl; [|reflexivity].
    destruct Hin as [Heq|Hin].
    + inversion Heq; subst. congruence.
    + apply (IH _ i j e).
      * intros x y H. apply (Hlt x y). right; exact H.
      * exact Hin.
      * rewrite cell_mset by (specialize (Hlt a b (or_introl eq_refl)); lia).
        exact Hc.
Qed.

End Loop.

(** ** float64 arithmetic *)

Lemma float_add_comm (x y : float) : (x + y = y + x)%float.
Proof.
  apply Prim2SF_inj. rewrite !FloatAxioms.add_spec.
  destruct (Prim2SF x) as [[]|[]| |sx mx ex], (Prim2SF y) as [[]|[]| |sy my ey];
    try reflexivity.
  unfold SF64add, SFadd. rewrite (Z.min_comm ey ex), Z.add_comm. reflexivity.
Qed.

(** ** The matrix that [fit] returns *)

Section Fit.

Variable np_log : float -> float.
Variable eigvals : matrix -> list (float * float).

(** The matrix at line 45: zero but for the variances on its diagonal. *)
Lemma fill_diagonal_spec X n p :
  let D := fill_diagonal X n p (zeros p) in
  square p D /\
  (forall i, i < p -> mget D i i = variance_of X n p i) /\
  (forall i j, i < p -> j < p -> i <> j -> mget D i j = 0%float).
Proof.
  destruct (fold_diag_update p (fun i _ => variance_of X n p i) p 0 (zeros p)
              (square_tabulate p _) (Nat.le_refl _)) as (Hsq & Hoff & Hin & _).
  split; [exact Hsq|]. split.
  - intros i Hi. apply Hin. lia.
  - intros i j Hi Hj Hij. unfold fill_diagonal.
    change (mget (fold_left (diag_update (fun i _ => variance_of X n p i)) (seq 0 p) (zeros p)) i j = 0%float).
    rewrite Hoff by exact Hij. apply mget_tabulate; assumption.
Qed.

(** Lines 63-67 on a square matrix. *)
Lemma symmetrize_spec p U :
  let R := symmetrize p U in
  square p R /\
  (forall i, i < p -> mget R i i = ((mget U i i + mget U i i) * 0.5)%float) /\
  (forall i j, i < p -> j < p -> i <> j ->
     mget R i j = (mget U i j + mget U j i)%float).
Proof.
  destruct (fold_diag_update p (fun _ x => (x * 0.5)%float) p 0
              (madd p U (transpose p U)) (square_tabulate p _) (Nat.le_refl _))
    as (Hsq & Hoff & Hin & _).
  assert (Hadd : forall i j, i < p -> j < p ->
            mget (madd p U (transpose p U)) i j = (mget U i j + mget U j i)%float).
  { intros i j Hi Hj. unfold madd. rewrite mget_tabulate by assumption.
    unfold transpose. rewrite mget_tabulate by assumption. reflexivity. }
  split; [exact Hsq|]. split.
  - intros i Hi. unfold symmetrize, halve_diagonal.
    change (mget (fold_left (diag_update (fun _ x => (x * 0.5)%float)) (seq 0 p)
                    (madd p U (transpose p U))) i i
            = ((mget U i i + mget U i i) * 0.5)%float).
    rewrite Hin by lia. rewrite Hadd by assumption. reflexivity.
  - intros i j Hi Hj Hij. unfold symmetrize, halve_diagonal.
    change (mget (fold_left (diag_update (fun _ x => (x * 0.5)%float)) (seq 0 p)
                    (madd p U (transpose p U))) i j
            = (mget U i j + mget U j i)%float).
    rewrite Hoff by exact Hij. apply Hadd; assumption.
Qed.

(** [fit] on a two-dimensional input: the loop over the pairs decides
    whether it returns, and what it returns is the symmetrized matrix. *)
Lemma fit_2d self X n p :
  shape X = [n; p] ->
  fit np_log eigvals self X =
    match pair_loop np_log eigvals X n p (upper_idx p) (fill_diagonal X n p (zeros p)) with
    | Ok U => (mkDPERS (Some X) (Some (symmetrize p U)), Ok (symmetrize p U))
    | Raise e => (mkDPERS (Some X) (cov self), Raise e)
    end.
Proof.
  intros H. unfold fit. rewrite H. reflexivity.
Qed.

(** The entries of the returned matrix. *)
Lemma fit_entries self X n p R :
  shape X = [n; p] ->
  snd (fit np_log eigvals self X) = Ok R ->
  square p R /\
  (forall i, i < p ->
     mget R i i = ((variance_of X n p i + variance_of X n p i) * 0.5)%float) /\
  (forall i j, i < j -> j < p ->
     exists c, cell np_log eigvals X n p (fill_diagonal X n p (zeros p)) i j = Ok c /\
               mget R i j = (c + 0)%float /\ mget R j i = (0 + c)%float).
Proof.
  intros Hshape Hfit. rewrite fit_2d with (n := n) (p := p) in Hfit by exact Hshape.
  destruct (fill_diagonal_spec X n p) as (HD & Hdiag & Hzero).
  destruct (pair_loop np_log eigvals X n p (upper_idx p) (fill_diagonal X n p (zeros p)))
    as [U|e] eqn:Hloop; simpl in Hfit; [|discriminate].
  inversion Hfit; subst R; clear Hfit.
  destruct (pair_loop_ok np_log eigvals X n p (upper_idx p) _ _ HD
              (fun i j H => proj1 (in_upper_idx p i j) H) (NoDup_upper_idx p) Hloop)
    as (HU & Hout & Hin).
  destruct (symmetrize_spec p U) as (HR & Hd & Ho).
  split; [exact HR|]. split.
  - intros i Hi. rewrite Hd by exact Hi.
    rewrite Hout by (rewrite in_upper_idx; lia). rewrite Hdiag by exact Hi. reflexivity.
  - intros i j Hij Hj.
    exists (mget U i j). split; [|split].
    + apply Hin. apply in_upper_idx. lia.
    + rewrite Ho by lia. f_equal.
      rewrite Hout by (rewrite in_upper_idx; lia). apply Hzero; lia.
    + rewrite Ho by lia. f_equal.
      rewrite Hout by (rewrite in_upper_idx; lia). apply Hzero; lia.
Qed.

End Fit.


(** ** Input validation *)

(** C7: an input whose number of dimensions is not two makes [fit] raise the
    assertion error of line 32; the object is left as it was, so neither
    [Xtrain] nor [cov] is set and no matrix is produced. *)
Theorem fit_rejects_non_2d np_log eigvals self X :
  ndim X <> 2 ->
  fit np_log eigvals self X = (self, Raise AssertionError).
Proof.
  unfold ndim, fit. intros H.
  destruct (shape X) as [|n [|p [|q rest]]]; simpl in H; try reflexivity.
  exfalso. apply H. reflexivity.
Qed.

Lemma fit_rejects_non_2d_witness :
  ndim X_flat <> 2 /\
  fit log_at_one eig_unreached init X_flat = (init, Raise AssertionError).
Proof.
  assert (H : ndim X_flat <> 2) by (vm_compute; discriminate).
  split; [exact H|].
  exact (fit_rejects_non_2d log_at_one eig_unreached init X_flat H).
Defined.

(** ** Determinism *)

(** C8: what [fit] returns does not depend on the attributes that an earlier
    call left in the object, so a second call on the same input returns the
    same matrix (or raises the same exception) as the first. *)
Theorem fit_idempotent np_log eigvals self self' X :
  snd (fit np_log eigvals self X) = snd (fit np_log eigvals self' X) /\
  snd (fit np_log eigvals (fst (fit np_log eigvals self X)) X)
    = snd (fit np_log eigvals self X).
Proof.
  assert (H : forall s s', snd (fit np_log eigvals s X) = snd (fit np_log eigvals s' X)).
  { intros s s'. unfold fit.
    destruct (shape X) as [|n [|p [|q rest]]]; try reflexivity.
    destruct (pair_loop np_log eigvals X n p (upper_idx p) (fill_diagonal X n p (zeros p)));
      reflexivity. }
  split; apply H.
Qed.

(** ** Symmetry *)

(** C5: in the matrix that [fit] returns on an [n] by [p] input, the
    entries [(i, j)] and [(j, i)] are the same float; Python's [==] holds
    between them exactly when the entry is not NaN. *)
Theorem fit_symmetric np_log eigvals self X n p R :
  shape X = [n; p] ->
  snd (fit np_log eigvals self X) = Ok R ->
  forall i j, i < p -> j < p ->
    mget R i j = mget R j i /\
    (mget R i j =? mget R j i)%float = negb (F64.isnan (mget R i j)).
Proof.
  intros Hshape Hfit i j Hi Hj.
  assert (Heq : mget R i j = mget R j i).
  { rewrite fit_2d with (n := n) (p := p) in Hfit by exact Hshape.
    destruct (pair_loop np_log eigvals X n p (upper_idx p) (fill_diagonal X n p (zeros p)))
      as [U|e]; simpl in Hfit; [|discriminate].
    inversion Hfit; subst R.
    destruct (symmetrize_spec p U) as (_ & _ & Hoff).
    destruct (Nat.eq_dec i j) as [->|Hij]; [reflexivity|].
    rewrite (Hoff i j) by assumption. rewrite (Hoff j i) by auto.
    apply float_add_comm. }
  split; [exact Heq|].
  rewrite <- Heq. unfold F64.isnan, is_nan.
  destruct (mget R i j =? mget R i j)%float; reflexivity.
Qed.

Lemma fit_symmetric_witness :
  mget [[0.25; nan]; [nan; 0]]%float 0 1 = mget [[0.25; nan]; [nan; 0]]%float 1 0.
Proof.
  assert (Hs : shape X_const = [2; 2]) by reflexivity.
  assert (Hf : snd (fit log_at_one eig_unreached init X_const)
               = Ok [[0.25; nan]; [nan; 0]]%float) by (vm_compute; reflexivity).
  exact (proj1 (fit_symmetric log_at_one eig_unreached init X_const 2 2 _ Hs Hf 0 1
                  (Nat.lt_0_succ 1) (Nat.lt_succ_diag_r 1))).
Defined.

(** C5, as the claim has it, fails on [X_const]: the second feature is
    constant, its variance is zero and the pair is stored as NaN; [fit]
    returns, and [result[0, 1] == result[1, 0]] is false. *)
Lemma fit_symmetric_counterexample :
  snd (fit log_at_one eig_unreached init X_const) = Ok [[0.25; nan]; [nan; 0]]%float /\
  (mget [[0.25; nan]; [nan; 0]]%float 0 1 =? mget [[0.25; nan]; [nan; 0]]%float 1 0)%float
  = false.
Proof.
  split; vm_compute; reflexivity.
Qed.

(** ** The rows where both columns are missing *)

Lemma filter_filter_weaker {A : Type} (f g : A -> bool) (l : list A) :
  (forall x, f x = true -> g x = true) ->
  filter f (filter g l) = filter f l.
Proof.
  intros H. induction l as [|x t IH]; simpl; [reflexivity|].
  destruct (g x) eqn:Hg; simpl.
  - rewrite IH. reflexivity.
  - destruct (f x) eqn:Hf; [|exact IH].
    rewrite (H x Hf) in Hg. discriminate.
Qed.

Lemma complete_after_drop (X_ij : list (float * float)) :
  complete (filter (fun row => negb (all_missing row)) X_ij) = complete X_ij.
Proof.
  unfold complete. apply filter_filter_weaker.
  intros [a b]. unfold any_missing, all_missing. simpl.
  destruct (F64.isnan a), (F64.isnan b); simpl; congruence.
Qed.

(** C9: removing the rows where both columns are missing (lines 54-55)
    before the call changes neither [m], [s11], [s22], [s12] nor what
    [find_cov_ij] returns or raises: they are computed from the rows where
    no column is missing. *)
Theorem drop_all_missing_redundant np_log eigvals X_ij S_ii S_jj :
  let kept := filter (fun row => negb (all_missing row)) X_ij in
  count_m kept = count_m X_ij /\
  sum11 kept = sum11 X_ij /\
  sum22 kept = sum22 X_ij /\
  sum12 kept = sum12 X_ij /\
  find_cov_ij np_log eigvals kept S_ii S_jj = find_cov_ij np_log eigvals X_ij S_ii S_jj.
Proof.
  intros kept. unfold find_cov_ij, count_m, sum11, sum22, sum12, kept.
  rewrite complete_after_drop. repeat split; reflexivity.
Qed.

(** ** The guard on zero variances *)

(** C10: when the variance of feature [k] is zero, the iteration for a pair
    that involves [k] takes the [else] branch of line 58: it stores NaN and
    does not call [find_cov_ij], whatever the other variance and the data
    are; in the matrix that [fit] returns, the row and the column of [k] are
    NaN off the diagonal. *)
Theorem zero_variance_guard np_log eigvals self X n p k :
  shape X = [n; p] -> k < p ->
  (variance_of X n p k =? 0)%float = true ->
  (forall M i j, i = k \/ j = k ->
     mget M k k = variance_of X n p k ->
     pair_step np_log eigvals X n p M (i, j) = Ok (mset M i j nan)) /\
  (forall R, snd (fit np_log eigvals self X) = Ok R ->
     forall j, j < p -> j <> k ->
       F64.isnan (mget R k j) = true /\ F64.isnan (mget R j k) = true).
Proof.
  intros Hshape Hk Hzero. split.
  - intros M i j Hij HM. unfold pair_step.
    assert (Hg : F64.ne (mget M i i) 0 && F64.ne (mget M j j) 0 = false).
    { destruct Hij as [->| ->]; rewrite HM; unfold F64.ne; rewrite Hzero; simpl.
      - reflexivity.
      - apply andb_false_r. }
    rewrite Hg. reflexivity.
  - intros R Hfit j Hj Hjk.
    destruct (fit_entries np_log eigvals self X n p R Hshape Hfit) as (_ & _ & Hoff).
    destruct (fill_diagonal_spec X n p) as (_ & Hdiag & _).
    assert (Hcell : forall a b, a < p -> b < p -> a = k \/ b = k ->
              cell np_log eigvals X n p (fill_diagonal X n p (zeros p)) a b = Ok nan).
    { intros a b Ha Hb Hab. unfold cell. rewrite !Hdiag by assumption.
      destruct Hab as [->| ->]; unfold F64.ne; rewrite Hzero; simpl.
      - reflexivity.
      - rewrite andb_false_r. reflexivity. }
    destruct (Nat.lt_ge_cases k j) as [Hlt|Hge].
    + destruct (Hoff k j Hlt Hj) as (c & Hc & H1 & H2).
      rewrite Hcell in Hc by auto. inversion Hc; subst c.
      rewrite H1, H2. split; reflexivity.
    + destruct (Hoff j k ltac:(lia) Hk) as (c & Hc & H1 & H2).
      rewrite Hcell in Hc by auto. inversion Hc; subst c.
      rewrite H1, H2. split; reflexivity.
Qed.

Lemma zero_variance_guard_witness :
  F64.isnan (mget [[0.25; nan]; [nan; 0]]%float 1 0) = true /\
  F64.isnan (mget [[0.25; nan]; [nan; 0]]%float 0 1) = true.
Proof.
  assert (Hs : shape X_const = [2; 2]) by reflexivity.
  assert (Hz : (variance_of X_const 2 2 1 =? 0)%float = true) by (vm_compute; reflexivity).
  assert (Hf : snd (fit log_at_one eig_unreached init X_const)
               = Ok [[0.25; nan]; [nan; 0]]%float) by (vm_compute; reflexivity).
  exact (proj2 (zero_variance_guard log_at_one eig_unreached init X_const 2 2 1
                  Hs (Nat.lt_succ_diag_r 1) Hz) _ Hf 0 (Nat.lt_0_succ 1) (Nat.neq_0_succ 0)).
Defined.

(** ** Special values of float64 *)

Section Degenerate.

Local Open Scope float_scope.

Lemma prim_nan (x : float) : Prim2SF x = S754_nan -> x = nan.
Proof. intros H. apply Prim2SF_inj. rewrite H. reflexivity. Qed.

Lemma prim_zero (x : float) (s : bool) : Prim2SF x = S754_zero s -> (x =? 0) = true.
Proof. intros H. rewrite FloatAxioms.eqb_spec, H. destruct s; reflexivity. Qed.


Lemma isfinite_spec (x : float) : F64.isfinite x = sf_finite (Prim2SF x).
Proof.
  unfold F64.isfinite, is_nan, is_infinity.
  rewrite !FloatAxioms.eqb_spec, abs_spec.
  destruct (Prim2SF x) as [[]|[]| |s m e]; try reflexivity.
  unfold SFeqb, SFcompare, SFabs.
  rewrite Z.compare_refl, Pos.compare_cont_refl. destruct s; reflexivity.
Qed.

Lemma degenerate_coefficients (x y : float) :
  let c0 := 0 * x * y in
  let c1 := 0 * x * y - 0 * x - 0 * y in
  (F64.isfinite x && F64.isfinite y = true -> (c0 =? 0) = true /\ (c1 =? 0) = true) /\
  (F64.isfinite x && F64.isfinite y = false -> c0 = nan /\ c1 = nan).
Proof.
  intros c0 c1. rewrite !isfinite_spec.
  assert (H0 : Prim2SF c0 = SF64mul (SF64mul (Prim2SF 0) (Prim2SF x)) (Prim2SF y)).
  { unfold c0. rewrite !FloatAxioms.mul_spec. reflexivity. }
  assert (H1 : Prim2SF c1 = SF64sub (SF64sub (SF64mul (SF64mul (Prim2SF 0) (Prim2SF x)) (Prim2SF y))
                                   (SF64mul (Prim2SF 0) (Prim2SF x)))
                                   (SF64mul (Prim2SF 0) (Prim2SF y))).
  { unfold c1. rewrite !FloatAxioms.sub_spec, !FloatAxioms.mul_spec. reflexivity. }
  change (Prim2SF 0) with (S754_zero false) in *.
  destruct (Prim2SF x) as [sx|sx| |sx mx ex], (Prim2SF y) as [sy|sy| |sy my ey];
    simpl in H0, H1; simpl; split; intros Hf; try discriminate;
    try (split; apply prim_nan; assumption).
  all: try (destruct sx); try (destruct sy); simpl in H0, H1;
    split; eapply prim_zero; eassumption.
Qed.

(** ** No jointly observed row *)

Lemma find_cov_ij_no_joint_rows np_log eigvals X_ij S_ii S_jj :
  complete X_ij = [] ->
  find_cov_ij np_log eigvals X_ij S_ii S_jj =
    if F64.isfinite S_ii && F64.isfinite S_jj then Raise ValueError
    else Raise LinAlgError.
Proof.
  intros H. unfold find_cov_ij, count_m, sum11, sum22, sum12. rewrite H.
  change (Z.of_nat (length (@nil (float * float)))) with 0%Z.
  change (np_sum (map _ (@nil (float * float)))) with 0%float.
  unfold coef. change (F64.of_int (- 0)) with 0%float. change (F64.of_int 0) with 0%float.
  destruct (degenerate_coefficients S_ii S_jj) as [Hfin Hnan].
  destruct (F64.isfinite S_ii && F64.isfinite S_jj).
  - destruct (Hfin eq_refl) as [H0 H1].
    unfold np_roots. cbn [rev app strip_leading].
    unfold F64.ne. rewrite H0, H1. reflexivity.
  - destruct (Hnan eq_refl) as [H0 H1]. rewrite H1, H0. reflexivity.
Qed.

End Degenerate.


Lemma count_m_zero X_ij : count_m X_ij = 0%Z -> complete X_ij = [].
Proof.
  unfold count_m. intros H. apply length_zero_iff_nil. lia.
Qed.

(** If the iteration of some pair of the upper triangle raises, [fit]
    raises. *)
Lemma fit_raises_at np_log eigvals self X n p i j e :
  shape X = [n; p] -> i < j -> j < p ->
  cell np_log eigvals X n p (fill_diagonal X n p (zeros p)) i j = Raise e ->
  raises (snd (fit np_log eigvals self X)) = true.
Proof.
  intros Hshape Hij Hj Hcell.
  rewrite fit_2d with (n := n) (p := p) by exact Hshape.
  pose proof (pair_loop_raises np_log eigvals X n p (upper_idx p)
                (fill_diagonal X n p (zeros p)) i j e
                (fun a b H => proj1 (proj1 (in_upper_idx p a b) H))
                (proj2 (in_upper_idx p i j) (conj Hij Hj)) Hcell) as Hr.
  destruct (pair_loop np_log eigvals X n p (upper_idx p) (fill_diagonal X n p (zeros p)));
    [discriminate Hr|reflexivity].
Qed.

(** C2, as the code has it: for a pair of features whose variances pass the
    guard of line 58 and that have no jointly observed row, [find_cov_ij]
    raises: all the coefficients are zero, [np.roots] returns no root and
    [np.argmax] of the empty array is a [ValueError] (with an infinite or
    NaN variance the coefficients are NaN and [np.roots] raises
    [LinAlgError]); so [fit] raises too and stores no value for the pair. *)
Theorem no_joint_rows_raises np_log eigvals self X n p i j :
  shape X = [n; p] -> i < j -> j < p ->
  count_m (pair_rows X n p i j) = 0%Z ->
  F64.ne (variance_of X n p i) 0 = true ->
  F64.ne (variance_of X n p j) 0 = true ->
  find_cov_ij np_log eigvals (pair_rows X n p i j)
      (variance_of X n p i) (variance_of X n p j)
    = (if F64.isfinite (variance_of X n p i) && F64.isfinite (variance_of X n p j)
       then Raise ValueError else Raise LinAlgError) /\
  raises (snd (fit np_log eigvals self X)) = true.
Proof.
  intros Hshape Hij Hj Hm Hi0 Hj0.
  pose proof (find_cov_ij_no_joint_rows np_log eigvals _
                (variance_of X n p i) (variance_of X n p j) (count_m_zero _ Hm)) as Hfind.
  split; [exact Hfind|].
  destruct (fill_diagonal_spec X n p) as (_ & Hdiag & _).
  assert (Hcell : exists e,
            cell np_log eigvals X n p (fill_diagonal X n p (zeros p)) i j = Raise e).
  { unfold cell. rewrite !Hdiag by lia. rewrite Hi0, Hj0, Hfind. simpl.
    destruct (F64.isfinite (variance_of X n p i) && F64.isfinite (variance_of X n p j));
      eexists; reflexivity. }
  destruct Hcell as [e He].
  exact (fit_raises_at np_log eigvals self X n p i j e Hshape Hij Hj He).
Qed.

Lemma no_joint_rows_raises_witness :
  find_cov_ij log_at_one eig_unreached (pair_rows X_disjoint 4 2 0 1)
      (variance_of X_disjoint 4 2 0) (variance_of X_disjoint 4 2 1)
    = (if F64.isfinite (variance_of X_disjoint 4 2 0)
          && F64.isfinite (variance_of X_disjoint 4 2 1)
       then Raise ValueError else Raise LinAlgError) /\
  raises (snd (fit log_at_one eig_unreached init X_disjoint)) = true.
Proof.
  exact (no_joint_rows_raises log_at_one eig_unreached init X_disjoint 4 2 0 1
           eq_refl (Nat.lt_0_succ 0) (Nat.lt_succ_diag_r 1) eq_refl eq_refl eq_refl).
Defined.

(** C2, as the claim has it, fails on [X_disjoint]: the variances are [0.25]
    and [1.0], no row has both features, and both the solver and [fit]
    raise [ValueError]. *)
Lemma no_joint_rows_counterexample :
  variance_of X_disjoint 4 2 0 = 0.25%float /\
  variance_of X_disjoint 4 2 1 = 1%float /\
  count_m (pair_rows X_disjoint 4 2 0 1) = 0%Z /\
  find_cov_ij log_at_one eig_unreached (pair_rows X_disjoint 4 2 0 1) 0.25 1
    = Raise ValueError /\
  fit log_at_one eig_unreached init X_disjoint
    = (mkDPERS (Some X_disjoint) None, Raise ValueError).
Proof.
  repeat split; vm_compute; reflexivity.
Qed.

(** ** A feature without any observation *)


Lemma observed_nil_all_nan (f : nat -> float) (l : list nat) :
  observed (map f l) = [] -> forall r, In r l -> F64.isnan (f r) = true.
Proof.
  unfold observed. induction l as [|a l IH]; simpl; intros H r Hr; [contradiction|].
  destruct (F64.isnan (f a)) eqn:Ha; simpl in H; [|discriminate].
  destruct Hr as [<-|Hr]; [exact Ha|]. apply IH; assumption.
Qed.

Lemma complete_nil_of_all_missing (f g : nat -> float) (l : list nat) :
  (forall r, In r l -> F64.isnan (f r) = true \/ F64.isnan (g r) = true) ->
  complete (map (fun r => (f r, g r)) l) = [].
Proof.
  unfold complete. induction l as [|a l IH]; simpl; intros H; [reflexivity|].
  unfold any_missing at 1. simpl.
  destruct (H a (or_introl eq_refl)) as [Ha|Ha]; rewrite Ha; simpl;
    try rewrite orb_true_r; simpl; apply IH; intros r Hr; apply H; right; exact Hr.
Qed.

(** No row of a pair is jointly observed when one of its two features is
    never observed. *)
Lemma pair_rows_no_joint X n p i j :
  observed (column X n p i) = [] \/ observed (column X n p j) = [] ->
  complete (pair_rows X n p i j) = [].
Proof.
  intros H. unfold pair_rows. rewrite complete_after_drop. unfold columns2.
  apply (complete_nil_of_all_missing (fun r => item2 X p r i) (fun r => item2 X p r j)).
  intros r Hr. destruct H as [H|H]; [left|right];
    exact (observed_nil_all_nan (fun r => item2 X p r _) (seq 0 n) H r Hr).
Qed.

(** What the iteration of a pair computes when one of its features is never
    observed: NaN without the solver if the guard fails, and otherwise the
    [LinAlgError] that [np.roots] raises on NaN coefficients. *)
Lemma cell_never_observed np_log eigvals X n p i j :
  i < p -> j < p ->
  (observed (column X n p i) = [] \/ observed (column X n p j) = []) ->
  cell np_log eigvals X n p (fill_diagonal X n p (zeros p)) i j =
    if F64.ne (variance_of X n p i) 0 && F64.ne (variance_of X n p j) 0
    then Raise LinAlgError else Ok nan.
Proof.
  intros Hi Hj H. destruct (fill_diagonal_spec X n p) as (_ & Hdiag & _).
  unfold cell. rewrite !Hdiag by assumption.
  destruct (F64.ne (variance_of X n p i) 0 && F64.ne (variance_of X n p j) 0);
    [|reflexivity].
  rewrite (find_cov_ij_no_joint_rows np_log eigvals _ _ _ (pair_rows_no_joint X n p i j H)).
  assert (Hnf : F64.isfinite (variance_of X n p i) && F64.isfinite (variance_of X n p j) = false).
  { destruct H as [H|H]; unfold variance_of at 1 2; rewrite H.
    - reflexivity.
    - apply andb_false_r. }
  rewrite Hnf. reflexivity.
Qed.

(** C1, as the code has it: the variance of a feature [k] without any
    observation is NaN. The guard of line 58 excludes zero variances only
    and NaN is different from zero, so the pair of [k] with a feature of
    non-zero variance reaches the solver, whose coefficients are then NaN:
    [np.roots] raises [LinAlgError] and so does [fit]. [fit] returns exactly
    when every other feature has a zero variance, and in every matrix that
    it returns the row and the column of [k] are NaN throughout. *)
Theorem never_observed_feature np_log eigvals self X n p k :
  shape X = [n; p] -> k < p ->
  observed (column X n p k) = [] ->
  variance_of X n p k = nan /\
  (forall j, j < p -> j <> k -> F64.ne (variance_of X n p j) 0 = true ->
     cell np_log eigvals X n p (fill_diagonal X n p (zeros p)) (Nat.min k j) (Nat.max k j)
       = Raise LinAlgError /\
     raises (snd (fit np_log eigvals self X)) = true) /\
  ((forall j, j < p -> j <> k -> F64.ne (variance_of X n p j) 0 = false) ->
     raises (snd (fit np_log eigvals self X)) = false) /\
  (forall R, snd (fit np_log eigvals self X) = Ok R ->
     forall j, j < p ->
       F64.isnan (mget R k j) = true /\ F64.isnan (mget R j k) = true).
Proof.
  intros Hshape Hk Hobs.
  assert (Hvar : variance_of X n p k = nan).
  { unfold variance_of. rewrite Hobs. reflexivity. }
  assert (Hcell : forall a b, a < p -> b < p -> a = k \/ b = k ->
            cell np_log eigvals X n p (fill_diagonal X n p (zeros p)) a b =
              if F64.ne (variance_of X n p a) 0 && F64.ne (variance_of X n p b) 0
              then Raise LinAlgError else Ok nan).
  { intros a b Ha Hb Hab. apply cell_never_observed; try assumption.
    destruct Hab as [->| ->]; [left|right]; exact Hobs. }
  split; [exact Hvar|]. split; [|split].
  - intros j Hj Hjk Hne.
    assert (Hc : cell np_log eigvals X n p (fill_diagonal X n p (zeros p))
                   (Nat.min k j) (Nat.max k j) = Raise LinAlgError).
    { rewrite Hcell by lia.
      destruct (Nat.lt_ge_cases k j) as [Hlt|Hge].
      - rewrite Nat.min_l, Nat.max_r by lia. rewrite Hvar, Hne. reflexivity.
      - rewrite Nat.min_r, Nat.max_l by lia. rewrite Hvar, Hne. reflexivity. }
    split; [exact Hc|].
    apply (fit_raises_at np_log eigvals self X n p (Nat.min k j) (Nat.max k j) LinAlgError);
      try assumption; lia.
  - intros Hall. rewrite fit_2d with (n := n) (p := p) by exact Hshape.
    destruct (pair_loop_total np_log eigvals X n p (upper_idx p)
                (fill_diagonal X n p (zeros p))
                (fun a b H => proj1 (proj1 (in_upper_idx p a b) H))) as [U HU].
    + intros a b Hab. apply in_upper_idx in Hab. destruct Hab as [Hab Hb].
      destruct (fill_diagonal_spec X n p) as (_ & Hdiag & _).
      unfold cell. rewrite !Hdiag by lia.
      destruct (Nat.eq_dec a k) as [->|Hak].
      * rewrite (Hall b) by lia. rewrite andb_false_r. reflexivity.
      * rewrite (Hall a) by lia. reflexivity.
    + rewrite HU. reflexivity.
  - intros R Hfit j Hj.
    destruct (fit_entries np_log eigvals self X n p R Hshape Hfit) as (_ & Hdiag & Hoff).
    destruct (Nat.lt_trichotomy k j) as [Hlt|[<-|Hgt]].
    + destruct (Hoff k j Hlt Hj) as (c & Hc & H1 & H2).
      rewrite Hcell in Hc by auto.
      destruct (F64.ne (variance_of X n p k) 0 && F64.ne (variance_of X n p j) 0);
        [discriminate|].
      inversion Hc; subst c. rewrite H1, H2. split; reflexivity.
    + rewrite Hdiag by exact Hk. rewrite Hvar. split; reflexivity.
    + destruct (Hoff j k Hgt Hk) as (c & Hc & H1 & H2).
      rewrite Hcell in Hc by auto.
      destruct (F64.ne (variance_of X n p j) 0 && F64.ne (variance_of X n p k) 0);
        [discriminate|].
      inversion Hc; subst c. rewrite H1, H2. split; reflexivity.
Qed.

Lemma never_observed_feature_witness :
  variance_of X_missing 2 2 0 = nan /\
  raises (snd (fit log_at_one eig_unreached init X_missing)) = true.
Proof.
  destruct (never_observed_feature log_at_one eig_unreached init X_missing 2 2 0
              eq_refl (Nat.lt_0_succ 1) eq_refl) as (Hv & Hr & _).
  split; [exact Hv|].
  exact (proj2 (Hr 1 (Nat.lt_succ_diag_r 1) (Nat.neq_succ_0 0) eq_refl)).
Defined.

(** C1, as the claim has it, fails on [X_missing]: its first feature has no
    observation and the second has variance [0.25]; [fit] raises
    [LinAlgError] from the solver and returns no matrix. *)
Lemma never_observed_counterexample :
  observed (column X_missing 2 2 0) = [] /\
  variance_of X_missing 2 2 1 = 0.25%float /\
  find_cov_ij log_at_one eig_unreached (pair_rows X_missing 2 2 0 1) nan 0.25
    = Raise LinAlgError /\
  fit log_at_one eig_unreached init X_missing
    = (mkDPERS (Some X_missing) None, Raise LinAlgError).
Proof.
  repeat split; vm_compute; reflexivity.
Qed.

(** ** The objective of an infeasible candidate *)


Section Objective.

Local Open Scope float_scope.

(** With at least one jointly observed row, [-m] is negative and the product
    [-m * (-inf)] of line 115 is [+inf]: the objective of a candidate whose
    [scond] is not positive is [+inf] or NaN, never [-inf]. *)
Lemma eta_infeasible np_log m s11 s12 S_ii S_jj r :
  (F64.of_int (- m) <? 0) = true ->
  (0 <? scond_of S_ii S_jj r) = false ->
  eta np_log m s11 s12 S_ii S_jj r = infinity \/
  eta np_log m s11 s12 S_ii S_jj r = nan.
Proof.
  intros Hm Hsc. unfold eta, masked_log. rewrite Hsc.
  set (a := F64.of_int (- m)) in *.
  set (q := (S_jj - 2 * r / S_ii * s12 + r * r / (S_ii * S_ii) * s11) / scond_of S_ii S_jj r).
  assert (Ha : Prim2SF (a * neg_infinity) = S754_infinity false).
  { rewrite FloatAxioms.mul_spec. rewrite FloatAxioms.ltb_spec in Hm.
    change (Prim2SF neg_infinity) with (S754_infinity true).
    change (Prim2SF 0) with (S754_zero false) in Hm.
    destruct (Prim2SF a) as [[]|[]| |[] ma ea]; try discriminate Hm; reflexivity. }
  assert (Hs : Prim2SF (a * neg_infinity - q) = S754_infinity false \/
               Prim2SF (a * neg_infinity - q) = S754_nan).
  { rewrite FloatAxioms.sub_spec, Ha.
    destruct (Prim2SF q) as [[]|[]| |[] mq eq]; simpl; auto. }
  destruct Hs as [Hs|Hs]; [left|right]; apply Prim2SF_inj; rewrite Hs; reflexivity.
Qed.

End Objective.

(** C3 on [X_slip]: the cubic has the candidates [-2.5], [-2.5] and [-1].
    For [-2.5] the conditional variance is [-2.125], yet its objective is
    [+inf], not [-inf], and the solver returns this infeasible candidate
    instead of [-1], the only one with a positive conditional variance. *)
Theorem objective_sign_slip :
  variance_of X_slip 3 2 0 = 2%float /\
  variance_of X_slip 3 2 1 = 1%float /\
  coef (count_m (pair_rows X_slip 3 2 0 1)) (sum11 (pair_rows X_slip 3 2 0 1))
       (sum22 (pair_rows X_slip 3 2 0 1)) (sum12 (pair_rows X_slip 3 2 0 1)) 2 1
    = [-2; -12; -34; -24]%float /\
  map (scond_of 2 1) [-2.5; -2.5; -1]%float = [-2.125; -2.125; 0.5]%float /\
  map (eta log_example 2 18 (-12) 2 1) [-2.5; -2.5; -1]%float
    = [infinity; infinity; 0x1.cc5c85fdf473ep+3]%float /\
  find_cov_ij log_example eig_example (pair_rows X_slip 3 2 0 1) 2 1 = Ok (-2.5)%float /\
  snd (fit log_example eig_example init X_slip) = Ok [[2; -2.5]; [-2.5; 1]]%float.
Proof.
  repeat split; vm_compute; reflexivity.
Qed.

(** ** The moments and the cubic *)





(** ** Doubling and halving a float64 *)

Section Doubling.
Local Open Scope Z_scope.

Lemma fexp_eq x : fexp prec emax x = Z.max (x - 53) (-1074).
Proof. reflexivity. Qed.

Lemma canonical_cases m e :
  bounded prec emax m e = true ->
  fexp prec emax (Zpos (digits2_pos m) + e) = e /\ e <= 971.
Proof.
  unfold bounded, canonical_mantissa. intros H.
  apply andb_prop in H. destruct H as [H1 H2].
  apply Z.eqb_eq in H1. apply Z.leb_le in H2. split; [exact H1|exact H2].
Qed.


Lemma digits_iter_xO k m :
  Zpos (digits2_pos (Pos.iter xO m k)) = Zpos (digits2_pos m) + Zpos k.
Proof.
  induction k using Pos.peano_ind.
  - cbn. lia.
  - rewrite Pos.iter_succ. cbn [digits2_pos]. lia.
Qed.

Lemma iter_pos_succ {A : Type} (f : A -> A) (k : positive) (x : A) :
  SpecFloat.iter_pos f (Pos.succ k) x = f (SpecFloat.iter_pos f k x).
Proof.
  assert (H : forall k x, SpecFloat.iter_pos f k (f x) = f (SpecFloat.iter_pos f k x)).
  { clear. induction k as [k IH|k IH|]; intros x; simpl.
    - rewrite !IH. reflexivity.
    - rewrite !IH. reflexivity.
    - reflexivity. }
  revert x. induction k as [k IH|k IH|]; intros x; simpl.
  - rewrite !IH, !H. reflexivity.
  - rewrite !H. reflexivity.
  - reflexivity.
Qed.

Lemma shr_iter_xO k m :
  SpecFloat.iter_pos shr_1 k (Build_shr_record (Zpos (Pos.iter xO m k)) false false)
  = Build_shr_record (Zpos m) false false.
Proof.
  revert m. induction k using Pos.peano_ind; intros m.
  - reflexivity.
  - rewrite Pos.iter_succ_r, iter_pos_succ, IHk. reflexivity.
Qed.

Lemma shifted_out_all k : shifted_out k.
Proof.
  intros s m e Hc. unfold binary_round_aux, shr_fexp.
  cbn [Zdigits2]. rewrite digits_iter_xO.
  replace (Zpos (digits2_pos m) + Zpos k + (e - Zpos k)) with (Zpos (digits2_pos m) + e) by lia.
  rewrite Hc. replace (e - (e - Zpos k)) with (Zpos k) by lia.
  cbn [shr shr_record_of_loc]. rewrite shr_iter_xO.
  cbn [shr_m loc_of_shr_record round_nearest_even Zdigits2 shr_record_of_loc].
  replace (e - Zpos k + Zpos k) with e by lia.
  rewrite Hc, Z.sub_diag. cbn [shr shr_m]. reflexivity.
Qed.

Lemma round_canonical s m e :
  fexp prec emax (Zpos (digits2_pos m) + e) = e ->
  binary_round_aux prec emax s (Zpos m) e loc_Exact
  = if e <=? 971 then S754_finite s m e else S754_infinity s.
Proof.
  intros Hc. unfold binary_round_aux, shr_fexp.
  cbn [Zdigits2]. rewrite Hc, Z.sub_diag.
  cbn [shr shr_record_of_loc shr_m loc_of_shr_record round_nearest_even Zdigits2].
  rewrite Hc, Z.sub_diag. cbn [shr shr_m]. reflexivity.
Qed.

(** The sum of a finite float with itself. *)
Lemma double_finite s m e :
  bounded prec emax m e = true ->
  SF64add (S754_finite s m e) (S754_finite s m e) =
    if Zpos (digits2_pos m) =? 53
    then (if e + 1 <=? 971 then S754_finite s m (e + 1) else S754_infinity s)
    else S754_finite s (m~0) e.
Proof.
  intros Hb. destruct (canonical_cases m e Hb) as [Hc He].
  pose proof Hc as Hc'. rewrite fexp_eq in Hc'.
  unfold SF64add, SFadd. rewrite Z.min_id.
  unfold shl_align at 1 2. rewrite Z.sub_diag. cbn [fst].
  assert (Hn : binary_normalize prec emax
                 (cond_Zopp s (Zpos m) + cond_Zopp s (Zpos m)) e false
               = binary_round prec emax s (m~0) e).
  { destruct s; cbn [cond_Zopp Z.opp Z.add]; rewrite Pos.add_diag; reflexivity. }
  rewrite Hn. unfold binary_round.
  assert (Hd : Zpos (digits2_pos m~0) = Zpos (digits2_pos m) + 1).
  { cbn [digits2_pos]. lia. }
  assert (Hal : shl_align m~0 e (fexp prec emax (Zpos (digits2_pos m~0) + e)) = (m~0%positive, e)).
  { unfold shl_align. rewrite fexp_eq, Hd.
    destruct (Z.max (Zpos (digits2_pos m) + 1 + e - 53) (-1074) - e) eqn:E;
      try reflexivity. lia. }
  rewrite Hal.
  destruct (Z.eqb_spec (Zpos (digits2_pos m)) 53) as [H53|H53].
  - replace e with (e + 1 - 1) at 1 by lia.
    apply (shifted_out_all 1 s m (e + 1)). rewrite fexp_eq. lia.
  - rewrite round_canonical.
    + destruct (Z.leb_spec e 971); [reflexivity|lia].
    + rewrite fexp_eq, Hd. lia.
Qed.

(** Half of the double of a finite float: the float itself, unless the
    double has overflowed. *)
Lemma half_double_finite s m e :
  bounded prec emax m e = true ->
  SF64mul (SF64add (S754_finite s m e) (S754_finite s m e)) (Prim2SF 0.5) =
    if (Zpos (digits2_pos m) =? 53) && (971 <=? e)
    then S754_infinity s else S754_finite s m e.
Proof.
  intros Hb. rewrite (double_finite s m e Hb).
  destruct (canonical_cases m e Hb) as [Hc He].
  pose proof Hc as Hc'. rewrite fexp_eq in Hc'.
  change (Prim2SF 0.5) with (S754_finite false 4503599627370496 (-53)).
  assert (Hs : xorb s false = s) by (destruct s; reflexivity).
  destruct (Z.eqb_spec (Zpos (digits2_pos m)) 53) as [H53|H53]; cbn [andb].
  - destruct (Z.leb_spec (e + 1) 971) as [Hle|Hgt].
    + destruct (Z.leb_spec 971 e); [lia|].
      unfold SF64mul, SFmul. rewrite Hs.
      replace (m * 4503599627370496)%positive with (Pos.iter xO m 52)
        by (rewrite Pos.mul_comm; reflexivity).
      replace (e + 1 + -53) with (e - 52) by lia.
      rewrite (shifted_out_all 52 s m e Hc).
      destruct (Z.leb_spec e 971); [reflexivity|lia].
    + destruct (Z.leb_spec 971 e); [|lia].
      cbn. rewrite Hs. reflexivity.
  - unfold SF64mul, SFmul. rewrite Hs.
    replace (m~0 * 4503599627370496)%positive with (Pos.iter xO m 53)
      by (rewrite Pos.mul_comm; reflexivity).
    replace (e + -53) with (e - 53) by lia.
    rewrite (shifted_out_all 53 s m e Hc).
    destruct (Z.leb_spec e 971); [reflexivity|lia].
Qed.
End Doubling.


(** Doubling and then halving gives the float back, unless the doubling
    has overflowed. *)
Lemma half_double (v : float) :
  doubling_overflows v = false -> ((v + v) * 0.5)%float = v.
Proof.
  unfold doubling_overflows. rewrite !isfinite_spec, FloatAxioms.add_spec.
  intros H. apply Prim2SF_inj. rewrite FloatAxioms.mul_spec, FloatAxioms.add_spec.
  pose proof (Prim2SF_valid v) as Hv.
  destruct (Prim2SF v) as [[]|[]| |s m e]; try reflexivity.
  cbn [SpecFloat.valid_binary] in Hv.
  rewrite (half_double_finite s m e Hv).
  rewrite (double_finite s m e Hv) in H. cbn [sf_finite andb] in H.
  destruct (Z.eqb_spec (Zpos (digits2_pos m)) 53) as [H53|H53]; [|reflexivity].
  cbn [andb].
  destruct (Z.leb_spec (e + 1) 971) as [Hle|Hgt].
  - destruct (Z.leb_spec 971 e); [lia|reflexivity].
  - discriminate H.
Qed.

Section Rounding.
Local Open Scope Z_scope.

Lemma digits2_pos_bounds p :
  2 ^ (Zpos (digits2_pos p) - 1) <= Zpos p < 2 ^ Zpos (digits2_pos p).
Proof.
  induction p as [p IH|p IH|]; cbn [digits2_pos].
  - rewrite Pos2Z.inj_succ. replace (Z.succ (Zpos (digits2_pos p)) - 1) with (Zpos (digits2_pos p)) by lia.
    rewrite Z.pow_succ_r by lia.
    replace (Zpos (digits2_pos p)) with (Z.succ (Zpos (digits2_pos p) - 1)) at 1 by lia.
    rewrite Z.pow_succ_r by lia. lia.
  - rewrite Pos2Z.inj_succ. replace (Z.succ (Zpos (digits2_pos p)) - 1) with (Zpos (digits2_pos p)) by lia.
    rewrite Z.pow_succ_r by lia.
    replace (Zpos (digits2_pos p)) with (Z.succ (Zpos (digits2_pos p) - 1)) at 1 by lia.
    rewrite Z.pow_succ_r by lia. lia.
  - cbn. lia.
Qed.

Lemma Zdigits2_le z t : 0 <= z -> 0 <= t -> z < 2 ^ t -> Zdigits2 z <= t.
Proof.
  intros Hz Ht Hlt. destruct z as [|p|p]; cbn [Zdigits2]; [exact Ht| |lia].
  pose proof (digits2_pos_bounds p) as [Hlo _].
  assert (H : 2 ^ (Zpos (digits2_pos p) - 1) < 2 ^ t) by lia.
  apply Z.pow_lt_mono_r_iff in H; lia.
Qed.

Lemma Zdigits2_lt z : 0 <= z -> z < 2 ^ Zdigits2 z.
Proof.
  intros Hz. destruct z as [|p|p]; cbn [Zdigits2]; [cbn; lia| |lia].
  apply digits2_pos_bounds.
Qed.

Lemma Zdigits2_nonneg z : 0 <= Zdigits2 z.
Proof. destruct z; cbn; lia. Qed.

Lemma shr_1_m R : 0 <= shr_m R -> shr_m (shr_1 R) = shr_m R / 2.
Proof.
  destruct R as [m r s]. cbn [shr_m]. intros Hm.
  destruct m as [|[p|p|]|p]; cbn [shr_1 shr_m]; try lia;
    Z.div_mod_to_equations; lia.
Qed.

Lemma shr_iter_m k R :
  0 <= shr_m R -> shr_m (SpecFloat.iter_pos shr_1 k R) = shr_m R / 2 ^ Zpos k.
Proof.
  intros Hm. induction k using Pos.peano_ind.
  - cbn [SpecFloat.iter_pos]. rewrite shr_1_m by exact Hm. reflexivity.
  - rewrite iter_pos_succ, shr_1_m.
    + rewrite IHk. rewrite Pos2Z.inj_succ, Z.pow_succ_r by lia.
      rewrite Z.div_div by lia. f_equal. lia.
    + rewrite IHk. apply Z.div_pos; lia.
Qed.

Lemma round_nearest_even_bounds m l :
  m <= round_nearest_even m l <= m + 1.
Proof.
  destruct l as [|[]]; cbn [round_nearest_even]; try lia.
  destruct (Z.even m); lia.
Qed.
End Rounding.
Section RoundingBound.
Local Open Scope Z_scope.

Lemma fexp_mono a b : a <= b -> fexp prec emax a <= fexp prec emax b.
Proof. rewrite !fexp_eq. lia. Qed.

Lemma shr_record_of_loc_m m l : shr_m (shr_record_of_loc m l) = m.
Proof. destruct l as [|[]]; reflexivity. Qed.

(** The mantissa and the exponent after a call to [shr]. *)
Lemma shr_spec R e k :
  0 <= shr_m R ->
  shr_m (fst (shr R e k)) = shr_m R / 2 ^ Z.max 0 k /\
  snd (shr R e k) = e + Z.max 0 k.
Proof.
  intros HR. destruct k as [|k|k]; cbn [shr fst snd].
  - rewrite Z.div_1_r. split; [reflexivity|lia].
  - rewrite shr_iter_m by exact HR. split; reflexivity.
  - rewrite Z.div_1_r. split; [reflexivity|lia].
Qed.

Lemma round_exponent_bound s q e l sz mz ez t :
  0 <= q ->
  q + 2 ^ Z.max 0 (fexp prec emax (Zdigits2 q + e) - e) < 2 ^ t ->
  binary_round_aux prec emax s q e l = S754_finite sz mz ez ->
  ez <= Z.max e (fexp prec emax (t + e)).
Proof.
  intros Hq Ht H. unfold binary_round_aux, shr_fexp in H.
  set (k := fexp prec emax (Zdigits2 q + e) - e) in *.
  assert (HR : 0 <= shr_m (shr_record_of_loc q l)) by (rewrite shr_record_of_loc_m; exact Hq).
  destruct (shr_spec (shr_record_of_loc q l) e k HR) as [Hm1 He1].
  rewrite shr_record_of_loc_m in Hm1.
  destruct (shr (shr_record_of_loc q l) e k) as [R1 e1]. cbn [fst snd] in Hm1, He1.
  pose proof (round_nearest_even_bounds (shr_m R1) (loc_of_shr_record R1)) as Hr.
  set (m1 := round_nearest_even (shr_m R1) (loc_of_shr_record R1)) in *.
  assert (Hk0 : 0 <= Z.max 0 k) by lia.
  assert (Hpk : 0 < 2 ^ Z.max 0 k) by (apply Z.pow_pos_nonneg; lia).
  assert (Htk : Z.max 0 k < t).
  { apply (Z.pow_lt_mono_r_iff 2); try lia.
    destruct (Z.lt_ge_cases t 0) as [Hneg|Hpos]; [|exact Hpos].
    rewrite (Z.pow_neg_r 2 t Hneg) in Ht. lia. }
  assert (Hm' : 0 <= shr_m R1) by (rewrite Hm1; apply Z.div_pos; lia).
  assert (Hm1lt : m1 < 2 ^ (t - Z.max 0 k)).
  { assert (Hle : shr_m R1 * 2 ^ Z.max 0 k <= q).
    { rewrite Hm1. rewrite Z.mul_comm. apply Z.mul_div_le. exact Hpk. }
    assert (Hsplit : 2 ^ t = 2 ^ (t - Z.max 0 k) * 2 ^ Z.max 0 k).
    { rewrite <- Z.pow_add_r by lia. f_equal. lia. }
    assert (Hlt : (shr_m R1 + 1) * 2 ^ Z.max 0 k < 2 ^ (t - Z.max 0 k) * 2 ^ Z.max 0 k) by lia.
    apply Z.mul_lt_mono_pos_r in Hlt; lia. }
  assert (Hd1 : Zdigits2 m1 <= t - Z.max 0 k) by (apply Zdigits2_le; lia).
  assert (HR2 : 0 <= shr_m (shr_record_of_loc m1 loc_Exact)) by (cbn; lia).
  destruct (shr_spec (shr_record_of_loc m1 loc_Exact) e1
              (fexp prec emax (Zdigits2 m1 + e1) - e1) HR2) as [_ He2].
  destruct (shr (shr_record_of_loc m1 loc_Exact) e1
              (fexp prec emax (Zdigits2 m1 + e1) - e1)) as [R2 e2].
  cbn [fst snd] in He2.
  assert (Hez : ez = e2).
  { destruct (shr_m R2); try discriminate H.
    destruct (e2 <=? emax - prec); inversion H; reflexivity. }
  subst ez e2 e1.
  assert (Hdq : Zdigits2 q <= t) by (apply Zdigits2_le; lia).
  pose proof (fexp_mono (Zdigits2 q + e) (t + e) ltac:(lia)) as Hf1.
  pose proof (fexp_mono (Zdigits2 m1 + (e + Z.max 0 k)) (t + e) ltac:(lia)) as Hf2.
  unfold k in *. lia.
Qed.
End RoundingBound.
Section Division.
Local Open Scope Z_scope.

(** The float64 of a positive count below [2^53]: exact, with a mantissa of
    53 bits. *)
Lemma of_nat_spec (n : nat) :
  0 < Z.of_nat n < 2 ^ 53 ->
  exists mc ec,
    Prim2SF (F64.of_nat n) = S754_finite false mc ec /\
    Zpos (digits2_pos mc) = 53 /\
    ec + 53 = Zdigits2 (Z.of_nat n) /\
    Zpos mc = Z.of_nat n * 2 ^ (- ec).
Proof.
  intros Hn. unfold F64.of_nat, F64.of_int.
  destruct (Z.ltb_spec (Z.of_nat n) 0) as [Hneg|_]; [lia|].
  rewrite of_uint63_spec. rewrite Uint63.of_Z_spec.
  rewrite Z.mod_small by (change wB with (2 ^ 63); split; [lia|];
    apply Z.lt_trans with (2 ^ 53); [lia|reflexivity]).
  destruct (Z.of_nat n) as [|p|p] eqn:Ep; try lia.
  cbn [binary_normalize Zdigits2]. unfold binary_round.
  pose proof (digits2_pos_bounds p) as [Hlo Hhi].
  assert (Hd : Zpos (digits2_pos p) <= 53).
  { assert (H : 2 ^ (Zpos (digits2_pos p) - 1) < 2 ^ 53) by lia.
    apply Z.pow_lt_mono_r_iff in H; lia. }
  rewrite fexp_eq. unfold shl_align.
  replace (Z.max (Zpos (digits2_pos p) + 0 - 53) (-1074) - 0) with (Zpos (digits2_pos p) - 53) by lia.
  destruct (Zpos (digits2_pos p) - 53) as [|d|d] eqn:Ed; try lia.
  - rewrite round_canonical by (rewrite fexp_eq; lia).
    exists p, 0. cbn [Z.leb Z.compare]. repeat split; try lia.
  - replace (Z.max (Zpos (digits2_pos p) + 0 - 53) (-1074)) with (Zneg d) by lia.
    rewrite round_canonical by (rewrite fexp_eq, digits_iter_xO; lia).
    exists (Pos.iter xO p d), (Zneg d). cbn [Z.leb Z.compare].
    repeat split; try lia.
    + rewrite digits_iter_xO. lia.
    + cbn [Z.opp]. clear. induction d using Pos.peano_ind.
      * cbn. lia.
      * rewrite Pos.iter_succ, Pos2Z.inj_succ, Z.pow_succ_r by lia.
        rewrite Pos2Z.inj_xO, IHd. lia.
Qed.

(** The quotient and the exponent that [SFdiv] hands over to the rounding. *)
Lemma div_core_spec mx ex mc ec :
  let e' := Z.min (fexp prec emax (Zpos (digits2_pos mx) + ex - (Zpos (digits2_pos mc) + ec)))
                  (ex - ec) in
  exists q l,
    SFdiv_core_binary prec emax (Zpos mx) ex (Zpos mc) ec = (q, e', l) /\
    0 <= q /\
    Zpos mc * q <= Zpos mx * 2 ^ (ex - ec - e') < Zpos mc * (q + 1) /\
    (Zpos mc * q = Zpos mx * 2 ^ (ex - ec - e') -> l = loc_Exact).
Proof.
  intros e'. unfold SFdiv_core_binary. cbn [Zdigits2]. fold e'.
  assert (Hs : 0 <= ex - ec - e') by (unfold e'; lia).
  remember (ex - ec - e') as s eqn:Es.
  set (m' := match s with Zpos _ => Z.shiftl (Zpos mx) s | Z0 => Zpos mx | Zneg _ => 0 end).
  assert (Hm' : m' = Zpos mx * 2 ^ s).
  { unfold m'. clear Es. destruct s as [|p|p]; try lia.
    apply Z.shiftl_mul_pow2. lia. }
  pose proof (Z_div_mod m' (Zpos mc) ltac:(lia)) as Hdm.
  destruct (Z.div_eucl m' (Zpos mc)) as [q r]. destruct Hdm as [Heq Hr].
  exists q, (new_location (Zpos mc) r). split; [reflexivity|].
  assert (Hp : 0 < 2 ^ s) by (apply Z.pow_pos_nonneg; lia).
  rewrite <- Hm'. repeat split; try nia.
  intros Hex. assert (r = 0) by lia. subst r.
  unfold new_location, new_location_even, new_location_odd.
  destruct (Z.even (Zpos mc)); reflexivity.
Qed.

Lemma bounded_exponent mx ex :
  bounded prec emax mx ex = true ->
  -1074 <= ex <= 971 /\ Zpos (digits2_pos mx) <= 53 /\
  Zpos (digits2_pos mx) + ex <= 1024 /\
  fexp prec emax (Zpos (digits2_pos mx) + ex) = ex.
Proof.
  intros Hb. destruct (canonical_cases mx ex Hb) as [Hc He].
  pose proof Hc as Hc'. rewrite fexp_eq in Hc'. repeat split; lia.
Qed.

(** The quotient of a finite float by a count stays below [2^1023] when the
    magnitudes of the two leave one binary order of margin. *)
Lemma div_exponent_coarse sx mx ex mc ec sz mz ez :
  bounded prec emax mx ex = true ->
  Zpos (digits2_pos mc) = 53 -> ec <= 0 ->
  Zpos (digits2_pos mx) + ex - (53 + ec) + 1 <= 1022 ->
  SF64div (S754_finite sx mx ex) (S754_finite false mc ec) = S754_finite sz mz ez ->
  ez <= 970.
Proof.
  intros Hb Hdc Hec HT H.
  destruct (bounded_exponent mx ex Hb) as (Hex & Hdx & _ & _).
  unfold SF64div, SFdiv in H.
  destruct (div_core_spec mx ex mc ec) as (q & l & Hcore & Hq & Hbnd & _).
  rewrite Hcore in H. rewrite Hdc in *.
  set (e' := Z.min (fexp prec emax (Zpos (digits2_pos mx) + ex - (53 + ec))) (ex - ec)) in *.
  assert (He' : -1074 <= e' /\ e' <= ex - ec /\
                e' <= Z.max (Zpos (digits2_pos mx) + ex - (53 + ec) - 53) (-1074)).
  { unfold e'. rewrite fexp_eq. lia. }
  set (s := ex - ec - e') in *.
  assert (Hs : 0 <= s) by (unfold s; lia).
  set (t0 := Z.max 0 (Zpos (digits2_pos mx) + s - 52)).
  pose proof (digits2_pos_bounds mx) as [_ Hmx].
  pose proof (digits2_pos_bounds mc) as [Hmc _]. rewrite Hdc in Hmc.
  change (2 ^ (53 - 1)) with 4503599627370496 in Hmc.
  assert (Hqt : q < 2 ^ t0).
  { assert (Hlt : 4503599627370496 * q < 2 ^ (Zpos (digits2_pos mx) + s)).
    { rewrite Z.pow_add_r by lia.
      assert (0 < 2 ^ s) by (apply Z.pow_pos_nonneg; lia). nia. }
    unfold t0. destruct (Z.max_spec 0 (Zpos (digits2_pos mx) + s - 52)) as [[Hc Hm]|[Hc Hm]];
      rewrite Hm.
    - replace (Zpos (digits2_pos mx) + s) with (52 + (Zpos (digits2_pos mx) + s - 52)) in Hlt by lia.
      rewrite Z.pow_add_r in Hlt by lia.
      change (2 ^ 52) with 4503599627370496 in Hlt. lia.
    - assert (2 ^ (Zpos (digits2_pos mx) + s) <= 2 ^ 52) by (apply Z.pow_le_mono_r; lia).
      change (2 ^ 52) with 4503599627370496 in *. change (2 ^ 0) with 1. lia. }
  assert (Ht0 : 0 <= t0) by (unfold t0; lia).
  assert (Hdq : Zdigits2 q <= t0) by (apply Zdigits2_le; assumption).
  set (k := Z.max 0 (fexp prec emax (Zdigits2 q + e') - e')).
  assert (Hk : 0 <= k <= t0).
  { unfold k. rewrite fexp_eq. pose proof (Zdigits2_nonneg q). lia. }
  assert (Hpk : 2 ^ k <= 2 ^ t0) by (apply Z.pow_le_mono_r; lia).
  assert (Hsum : q + 2 ^ k < 2 ^ (t0 + 1)).
  { rewrite Z.pow_add_r by lia. change (2 ^ 1) with 2. lia. }
  pose proof (round_exponent_bound _ q e' l sz mz ez (t0 + 1) Hq Hsum H) as Hez.
  rewrite fexp_eq in Hez. unfold t0, s in Hez. lia.
Qed.
End Division.
Section SmallCounts.
Local Open Scope Z_scope.

(** Division of the largest binade by 3. *)
Lemma div_three_top sx mx sz mz ez :
  bounded prec emax mx 971 = true ->
  SF64div (S754_finite sx mx 971) (Prim2SF 3) = S754_finite sz mz ez ->
  ez <= 970.
Proof.
  intros Hb H. change (Prim2SF 3) with (S754_finite false 6755399441055744 (-51)) in H.
  destruct (bounded_exponent mx 971 Hb) as (_ & Hdx & _ & Hc).
  rewrite fexp_eq in Hc.
  assert (Hd : Zpos (digits2_pos mx) = 53) by lia.
  unfold SF64div, SFdiv in H.
  destruct (div_core_spec mx 971 6755399441055744 (-51)) as (q & l & Hcore & Hq & Hbnd & _).
  rewrite Hcore in H. clear Hcore. rewrite Hd in *.
  change (Zpos (digits2_pos 6755399441055744)) with 53 in *.
  change (Z.min (fexp prec emax (53 + 971 - (53 + -51))) (971 - -51)) with 969 in *.
  change (971 - -51 - 969) with 53 in Hbnd.
  change (2 ^ 53) with 9007199254740992 in Hbnd.
  pose proof (digits2_pos_bounds mx) as [_ Hmx]. rewrite Hd in Hmx.
  change (2 ^ 53) with 9007199254740992 in Hmx.
  assert (Hq54 : q < 2 ^ 54) by (change (2 ^ 54) with 18014398509481984; lia).
  assert (Hdq : Zdigits2 q <= 54) by (apply Zdigits2_le; lia).
  set (k := Z.max 0 (fexp prec emax (Zdigits2 q + 969) - 969)).
  assert (Hk : 0 <= k <= 1) by (unfold k; rewrite fexp_eq; lia).
  assert (Hpk : 2 ^ k <= 2 ^ 1) by (apply Z.pow_le_mono_r; lia).
  change (2 ^ 1) with 2 in Hpk.
  assert (Hsum : q + 2 ^ k < 2 ^ 54) by (change (2 ^ 54) with 18014398509481984; lia).
  pose proof (round_exponent_bound _ q 969 l sz mz ez 54 Hq Hsum H) as Hez.
  rewrite fexp_eq in Hez. lia.
Qed.

(** Division of the largest binade by 2: exact. *)
Lemma div_two_top sx mx :
  bounded prec emax mx 971 = true ->
  SF64div (S754_finite sx mx 971) (Prim2SF 2) = S754_finite sx mx 970.
Proof.
  intros Hb. change (Prim2SF 2) with (S754_finite false 4503599627370496 (-51)).
  destruct (bounded_exponent mx 971 Hb) as (_ & Hdx & _ & Hc).
  rewrite fexp_eq in Hc.
  assert (Hd : Zpos (digits2_pos mx) = 53) by lia.
  unfold SF64div, SFdiv.
  destruct (div_core_spec mx 971 4503599627370496 (-51)) as (q & l & Hcore & Hq & Hbnd & Hex).
  rewrite Hcore. clear Hcore. rewrite Hd in *.
  change (Zpos (digits2_pos 4503599627370496)) with 53 in *.
  change (Z.min (fexp prec emax (53 + 971 - (53 + -51))) (971 - -51)) with 969 in *.
  change (971 - -51 - 969) with 53 in *.
  change (2 ^ 53) with 9007199254740992 in *.
  assert (Hq2 : q = Zpos (Pos.iter xO mx 1)) by (cbn [Pos.iter]; lia).
  rewrite (Hex ltac:(lia)). rewrite Hq2.
  assert (Hs : xorb sx false = sx) by (destruct sx; reflexivity).
  rewrite Hs. change 969 with (970 - 1).
  rewrite (shifted_out_all 1 sx mx 970) by (rewrite fexp_eq; lia).
  reflexivity.
Qed.

(** Division by 1: exact. *)
Lemma div_one sx mx ex :
  bounded prec emax mx ex = true ->
  SF64div (S754_finite sx mx ex) (Prim2SF 1) = S754_finite sx mx ex.
Proof.
  intros Hb. change (Prim2SF 1) with (S754_finite false 4503599627370496 (-52)).
  destruct (bounded_exponent mx ex Hb) as (Hex & Hdx & _ & Hc).
  pose proof Hc as Hc'. rewrite fexp_eq in Hc'.
  unfold SF64div, SFdiv.
  destruct (div_core_spec mx ex 4503599627370496 (-52)) as (q & l & Hcore & Hq & Hbnd & Hexact).
  rewrite Hcore. clear Hcore.
  change (Zpos (digits2_pos 4503599627370496)) with 53 in *.
  assert (Hs : xorb sx false = sx) by (destruct sx; reflexivity).
  rewrite Hs. rewrite fexp_eq in *.
  destruct (Z_lt_le_dec (-1074) ex) as [Hnorm|Hsub].
  - replace (Z.min (Z.max (Zpos (digits2_pos mx) + ex - (53 + -52) - 53) (-1074)) (ex - -52))
      with (ex - 1) in * by lia.
    replace (ex - -52 - (ex - 1)) with 53 in * by lia.
    change (2 ^ 53) with 9007199254740992 in *.
    assert (Hq2 : q = Zpos (Pos.iter xO mx 1)) by (cbn [Pos.iter]; lia).
    rewrite (Hexact ltac:(lia)). rewrite Hq2.
    rewrite (shifted_out_all 1 sx mx ex Hc).
    destruct (Z.leb_spec ex 971); [reflexivity|lia].
  - replace (Z.min (Z.max (Zpos (digits2_pos mx) + ex - (53 + -52) - 53) (-1074)) (ex - -52))
      with ex in * by lia.
    replace (ex - -52 - ex) with 52 in * by lia.
    change (2 ^ 52) with 4503599627370496 in *.
    assert (Hq1 : q = Zpos mx) by lia.
    rewrite (Hexact ltac:(lia)). rewrite Hq1.
    rewrite (round_canonical sx mx ex Hc).
    destruct (Z.leb_spec ex 971); [reflexivity|lia].
Qed.
End SmallCounts.
Section VarianceRange.
Local Open Scope Z_scope.

Lemma doubling_overflows_spec v :
  doubling_overflows v =
    match Prim2SF v with
    | S754_finite s m e => (Zpos (digits2_pos m) =? 53) && (971 <=? e)
    | _ => false
    end.
Proof.
  unfold doubling_overflows. rewrite !isfinite_spec, FloatAxioms.add_spec.
  pose proof (Prim2SF_valid v) as Hv.
  destruct (Prim2SF v) as [[]|[]| |s m e]; try reflexivity.
  cbn [SpecFloat.valid_binary] in Hv. rewrite (double_finite s m e Hv).
  cbn [sf_finite andb].
  destruct (Z.eqb_spec (Zpos (digits2_pos m)) 53) as [H53|H53]; cbn [andb]; [|reflexivity].
  destruct (Z.leb_spec (e + 1) 971), (Z.leb_spec 971 e); try lia; reflexivity.
Qed.

(** A sum divided by a count of at least two never reaches [2^1023]. *)
Lemma div_count_safe (s : float) (n : nat) :
  (2 <= n)%nat -> Z.of_nat n < 2 ^ 53 ->
  doubling_overflows (s / F64.of_nat n)%float = false.
Proof.
  intros Hn2 Hn53. rewrite doubling_overflows_spec, FloatAxioms.div_spec.
  destruct (of_nat_spec n ltac:(lia)) as (mc & ec & Hc & Hdc & Hec & Hmc).
  rewrite Hc.
  assert (Hdn : 2 <= Zdigits2 (Z.of_nat n) <= 53).
  { split.
    - pose proof (Zdigits2_lt (Z.of_nat n) ltac:(lia)) as Hlt.
      pose proof (Zdigits2_nonneg (Z.of_nat n)) as Hnn.
      destruct (Z_lt_le_dec (Zdigits2 (Z.of_nat n)) 2) as [Hsmall|]; [|assumption].
      assert (2 ^ Zdigits2 (Z.of_nat n) <= 2 ^ 1) by (apply Z.pow_le_mono_r; lia).
      change (2 ^ 1) with 2 in *. lia.
    - apply Zdigits2_le; lia. }
  pose proof (Prim2SF_valid s) as Hv.
  destruct (Prim2SF s) as [sx|sx| |sx mx ex]; try reflexivity.
  cbn [SpecFloat.valid_binary] in Hv.
  destruct (SF64div (S754_finite sx mx ex) (S754_finite false mc ec))
    as [| | |sz mz ez] eqn:Hz; try reflexivity.
  assert (Hez : ez <= 970).
  { destruct (bounded_exponent mx ex Hv) as (Hex & Hdx & Hsum & _).
    destruct (Z_le_gt_dec (Zpos (digits2_pos mx) + ex - (53 + ec) + 1) 1022) as [Hco|Htight].
    - exact (div_exponent_coarse sx mx ex mc ec sz mz ez Hv Hdc ltac:(lia) Hco Hz).
    - assert (Hex971 : ex = 971) by lia. subst ex.
      assert (Hec51 : ec = -51) by lia. subst ec.
      change (2 ^ (- -51)) with 2251799813685248 in Hmc.
      assert (Hn23 : Z.of_nat n = 2 \/ Z.of_nat n = 3).
      { pose proof (Zdigits2_lt (Z.of_nat n) ltac:(lia)) as Hlt.
        replace (Zdigits2 (Z.of_nat n)) with 2 in Hlt by lia.
        change (2 ^ 2) with 4 in Hlt. lia. }
      destruct Hn23 as [Hn|Hn]; rewrite Hn in Hmc.
      + assert (mc = 4503599627370496%positive) by lia. subst mc.
        change (S754_finite false 4503599627370496 (-51)) with (Prim2SF 2) in Hz.
        rewrite (div_two_top sx mx Hv) in Hz. inversion Hz. lia.
      + assert (mc = 6755399441055744%positive) by lia. subst mc.
        change (S754_finite false 6755399441055744 (-51)) with (Prim2SF 3) in Hz.
        exact (div_three_top sx mx sz mz ez Hv Hz). }
  destruct (Z.leb_spec 971 ez); [lia|]. apply andb_false_r.
Qed.

Lemma sub_self_finite sx mx ex :
  SF64sub (S754_finite sx mx ex) (S754_finite sx mx ex) = S754_zero false.
Proof.
  unfold SF64sub, SFsub. rewrite Z.min_id.
  unfold shl_align. rewrite Z.sub_diag. cbv iota. cbn [fst].
  reflexivity.
Qed.

(** The variance of a single value is zero or NaN. *)
Lemma np_var_single (a : float) : doubling_overflows (np_var [a]) = false.
Proof.
  change (np_var [a])
    with ((0 + (-0 + (a - (0 + (-0 + a)) / 1) * (a - (0 + (-0 + a)) / 1))) / 1)%float.
  pose proof (Prim2SF_valid a) as Hv.
  destruct (Prim2SF a) as [sx|sx| |sx mx ex] eqn:Ea.
  - rewrite <- (SF2Prim_Prim2SF a), Ea. destruct sx; vm_compute; reflexivity.
  - rewrite <- (SF2Prim_Prim2SF a), Ea. destruct sx; vm_compute; reflexivity.
  - rewrite (prim_nan a Ea). vm_compute. reflexivity.
  - cbn [SpecFloat.valid_binary] in Hv.
    assert (H0 : (0 + a)%float = a).
    { apply Prim2SF_inj. rewrite FloatAxioms.add_spec, Ea. reflexivity. }
    assert (Hn : (-0 + a)%float = a).
    { apply Prim2SF_inj. rewrite FloatAxioms.add_spec, Ea. reflexivity. }
    assert (H1 : (a / 1)%float = a).
    { apply Prim2SF_inj. rewrite FloatAxioms.div_spec, Ea. apply div_one. exact Hv. }
    assert (H2 : (a - a)%float = 0%float).
    { apply Prim2SF_inj. rewrite FloatAxioms.sub_spec, Ea. apply sub_self_finite. }
    rewrite Hn, H0, H1, H2. vm_compute. reflexivity.
Qed.

(** The variance that [np.var] computes is never a finite float whose double
    overflows: it is a sum divided by the number of elements. *)
Lemma np_var_doubling_safe (xs : list float) :
  Z.of_nat (length xs) < 2 ^ 53 ->
  doubling_overflows (np_var xs) = false.
Proof.
  intros Hlen. destruct xs as [|a [|b t]].
  - vm_compute. reflexivity.
  - apply np_var_single.
  - unfold np_var. apply div_count_safe; [cbn [length]; lia|exact Hlen].
Qed.
End VarianceRange.

(** ** The assembly of the matrix *)

Lemma observed_length (xs : list float) : (length (observed xs) <= length xs)%nat.
Proof.
  unfold observed. induction xs as [|x t IH]; cbn [filter length]; [lia|].
  destruct (negb (F64.isnan x)); cbn [length]; lia.
Qed.

Lemma variance_of_doubling_safe X n p i :
  (Z.of_nat n < 2 ^ 53)%Z ->
  doubling_overflows (variance_of X n p i) = false.
Proof.
  intros Hn. unfold variance_of. apply np_var_doubling_safe.
  pose proof (observed_length (column X n p i)) as Hle.
  unfold column in Hle at 2. rewrite length_map, length_seq in Hle. lia.
Qed.

(** * Further properties of [fit] and [find_cov_ij] *)

(** ** The shape of the result *)

Lemma square_rows p A : square p A -> length A = p /\ Forall (fun row => length row = p) A.
Proof.
  intros [Hlen Hrow]. split; [exact Hlen|].
  apply Forall_forall. intros row Hin.
  destruct (In_nth A row [] Hin) as (i & Hi & <-). apply Hrow. lia.
Qed.

(** X1: on an [n] by [p] input, the matrix that [fit] returns has [p] rows
    of [p] entries each. *)
Theorem fit_shape np_log eigvals self X n p R :
  shape X = [n; p] ->
  snd (fit np_log eigvals self X) = Ok R ->
  length R = p /\ Forall (fun row => length row = p) R.
Proof.
  intros Hshape Hfit. apply square_rows.
  exact (proj1 (fit_entries np_log eigvals self X n p R Hshape Hfit)).
Qed.

Lemma fit_shape_witness :
  length [[0.25; nan]; [nan; 0]]%float = 2 /\
  Forall (fun row => length row = 2) [[0.25; nan]; [nan; 0]]%float.
Proof.
  assert (Hf : snd (fit log_at_one eig_unreached init X_const)
               = Ok [[0.25; nan]; [nan; 0]]%float) by (vm_compute; reflexivity).
  exact (fit_shape log_at_one eig_unreached init X_const 2 2 _ eq_refl Hf).
Defined.

(** ** Which exception [fit] raises *)

(** The first iteration that raises ends the loop. *)
Lemma pair_loop_first_raise np_log eigvals X n p idx : forall M e,
  (forall a b, In (a, b) idx -> a < b) ->
  (pair_loop np_log eigvals X n p idx M = Raise e <->
   exists l1 i j l2,
     idx = l1 ++ (i, j) :: l2 /\
     (forall a b, In (a, b) l1 -> raises (cell np_log eigvals X n p M a b) = false) /\
     cell np_log eigvals X n p M i j = Raise e).
Proof.
  induction idx as [|[a b] rest IH]; intros M e Hlt; cbn [pair_loop].
  - split; [discriminate|]. intros (l1 & i & j & l2 & Heq & _).
    destruct l1; discriminate Heq.
  - rewrite pair_step_cell.
    assert (Hab : a < b) by (apply Hlt; left; reflexivity).
    assert (Hlt' : forall x y, In (x, y) rest -> x < y)
      by (intros x y H; apply Hlt; right; exact H).
    destruct (cell np_log eigvals X n p M a b) as [r|e'] eqn:Hc; cbn [bind].
    + rewrite (IH (mset M a b r) e Hlt'). split.
      * intros (l1 & i & j & l2 & Heq & Hok & Hr).
        exists ((a, b) :: l1), i, j, l2. split; [rewrite Heq; reflexivity|]. split.
        -- intros x y [Hxy|Hxy].
           ++ inversion Hxy; subst. rewrite Hc. reflexivity.
           ++ rewrite <- (cell_mset np_log eigvals X n p M x y a b r) by lia.
              apply Hok. exact Hxy.
        -- rewrite <- (cell_mset np_log eigvals X n p M i j a b r) by lia. exact Hr.
      * intros (l1 & i & j & l2 & Heq & Hok & Hr).
        destruct l1 as [|[x y] l1]; cbn [app] in Heq; inversion Heq; subst.
        -- congruence.
        -- exists l1, i, j, l2. split; [reflexivity|]. split.
           ++ intros u v Huv. rewrite (cell_mset np_log eigvals X n p M u v x y r) by lia.
              apply Hok. right. exact Huv.
           ++ rewrite (cell_mset np_log eigvals X n p M i j x y r) by lia. exact Hr.
    + split.
      * intros H. inversion H; subst.
        exists [], a, b, rest. split; [reflexivity|]. split; [intros x y []|exact Hc].
      * intros (l1 & i & j & l2 & Heq & Hok & Hr).
        destruct l1 as [|[x y] l1]; cbn [app] in Heq; inversion Heq; subst.
        -- congruence.
        -- specialize (Hok x y (or_introl eq_refl)). rewrite Hc in Hok. discriminate.
Qed.

Lemma cell_at_variances np_log eigvals X n p i j :
  i < p -> j < p ->
  cell np_log eigvals X n p (fill_diagonal X n p (zeros p)) i j
  = pair_value np_log eigvals X n p i j.
Proof.
  intros Hi Hj. destruct (fill_diagonal_spec X n p) as (_ & Hdiag & _).
  unfold cell, pair_value. rewrite !Hdiag by assumption. reflexivity.
Qed.

(** X2: [fit] raises exactly when the iteration of some pair raises, and
    the exception is the one of the first such pair in the order of the
    loop (the upper triangle, row by row): every pair before it either has
    a zero variance or is solved by [find_cov_ij] without an exception. *)
Theorem fit_first_exception np_log eigvals self X n p e :
  shape X = [n; p] ->
  (snd (fit np_log eigvals self X) = Raise e <->
   exists l1 i j l2,
     upper_idx p = l1 ++ (i, j) :: l2 /\
     (forall a b, In (a, b) l1 -> raises (pair_value np_log eigvals X n p a b) = false) /\
     pair_value np_log eigvals X n p i j = Raise e).
Proof.
  intros Hshape. rewrite fit_2d with (n := n) (p := p) by exact Hshape.
  pose proof (pair_loop_first_raise np_log eigvals X n p (upper_idx p)
                (fill_diagonal X n p (zeros p)) e
                (fun a b H => proj1 (proj1 (in_upper_idx p a b) H))) as Hloop.
  assert (Hin : forall l1 i j l2 a b, upper_idx p = l1 ++ (i, j) :: l2 ->
            In (a, b) (l1 ++ (i, j) :: l2) -> a < p /\ b < p).
  { intros l1 i j l2 a b Heq Hab. rewrite <- Heq in Hab.
    apply in_upper_idx in Hab. lia. }
  split.
  - intros Hfit.
    assert (Hr : pair_loop np_log eigvals X n p (upper_idx p) (fill_diagonal X n p (zeros p))
                 = Raise e).
    { destruct (pair_loop np_log eigvals X n p (upper_idx p) (fill_diagonal X n p (zeros p)));
        cbn [snd] in Hfit; [discriminate|exact Hfit]. }
    destruct (proj1 Hloop Hr) as (l1 & i & j & l2 & Heq & Hok & Hc).
    exists l1, i, j, l2. split; [exact Heq|]. split.
    + intros a b Hab.
      assert (Hab' : a < p /\ b < p)
        by (apply (Hin l1 i j l2 a b Heq); apply in_or_app; left; exact Hab).
      destruct Hab' as [Ha Hb].
      rewrite <- cell_at_variances by assumption. apply Hok. exact Hab.
    + assert (Hij : i < p /\ j < p)
        by (apply (Hin l1 i j l2 i j Heq); apply in_or_app; right; left; reflexivity).
      destruct Hij as [Hi Hj].
      rewrite <- cell_at_variances by assumption. exact Hc.
  - intros (l1 & i & j & l2 & Heq & Hok & Hc).
    assert (Hr : pair_loop np_log eigvals X n p (upper_idx p) (fill_diagonal X n p (zeros p))
                 = Raise e).
    { apply (proj2 Hloop). exists l1, i, j, l2. split; [exact Heq|]. split.
      - intros a b Hab.
        assert (Hab' : a < p /\ b < p)
        by (apply (Hin l1 i j l2 a b Heq); apply in_or_app; left; exact Hab).
      destruct Hab' as [Ha Hb].
        rewrite cell_at_variances by assumption. apply Hok. exact Hab.
      - assert (Hij : i < p /\ j < p)
          by (apply (Hin l1 i j l2 i j Heq); apply in_or_app; right; left; reflexivity).
        destruct Hij as [Hi Hj].
        rewrite cell_at_variances by assumption. exact Hc. }
    rewrite Hr. reflexivity.
Qed.

Lemma fit_first_exception_witness :
  exists l1 i j l2,
    upper_idx 2 = l1 ++ (i, j) :: l2 /\
    (forall a b, In (a, b) l1 ->
       raises (pair_value log_at_one eig_unreached X_disjoint 4 2 a b) = false) /\
    pair_value log_at_one eig_unreached X_disjoint 4 2 i j = Raise ValueError.
Proof.
  assert (Hf : snd (fit log_at_one eig_unreached init X_disjoint) = Raise ValueError)
    by (vm_compute; reflexivity).
  exact (proj1 (fit_first_exception log_at_one eig_unreached init X_disjoint 4 2 ValueError
                  eq_refl) Hf).
Defined.

(** ** Tables without rows, tables with one feature *)

(** X3: a table without any row and with at least two features makes [fit]
    raise [LinAlgError]: all the variances are NaN, the first pair passes
    the guard and [np.roots] receives NaN coefficients. *)
Theorem fit_no_rows np_log eigvals self X p :
  shape X = [0; p] -> 2 <= p ->
  snd (fit np_log eigvals self X) = Raise LinAlgError.
Proof.
  intros Hshape Hp.
  rewrite fit_2d with (n := 0) (p := p) by exact Hshape.
  assert (Hr : pair_loop np_log eigvals X 0 p (upper_idx p) (fill_diagonal X 0 p (zeros p))
               = Raise LinAlgError).
  { apply (pair_loop_first_raise np_log eigvals X 0 p (upper_idx p) _ LinAlgError
             (fun a b H => proj1 (proj1 (in_upper_idx p a b) H))).
    destruct p as [|[|q]]; try lia.
    exists [], 0, 1, (map (fun j => (0, j)) (seq 2 q)
                      ++ flat_map (fun i => map (fun j => (i, j)) (seq (S i) (S (S q) - S i)))
                           (seq 1 (S q))).
    split; [reflexivity|]. split; [intros a b []|].
    rewrite cell_never_observed by (try lia; left; reflexivity).
    reflexivity. }
  rewrite Hr. reflexivity.
Qed.

Lemma fit_no_rows_witness :
  snd (fit log_at_one eig_unreached init X_empty) = Raise LinAlgError.
Proof.
  exact (fit_no_rows log_at_one eig_unreached init X_empty 3 eq_refl
           (le_S _ _ (le_n 2))).
Defined.

(** X4: with a single feature [fit] never reaches the solver and returns
    the one by one matrix that holds the variance of the feature (NaN when
    the feature has no observation). *)
Theorem fit_single_feature np_log eigvals self X n :
  shape X = [n; 1] -> (Z.of_nat n < 2 ^ 53)%Z ->
  snd (fit np_log eigvals self X) = Ok [[variance_of X n 1 0]].
Proof.
  intros Hshape Hn. unfold fit. rewrite Hshape.
  cbv [upper_idx seq flat_map map app pair_loop symmetrize halve_diagonal madd transpose
       tabulate fill_diagonal zeros fold_left mset mget upd nth Nat.sub snd].
  rewrite half_double by (apply variance_of_doubling_safe; exact Hn).
  reflexivity.
Qed.

Lemma fit_single_feature_witness :
  snd (fit log_at_one eig_unreached init X_column) = Ok [[variance_of X_column 3 1 0]].
Proof.
  assert (Hn : (Z.of_nat 3 < 2 ^ 53)%Z) by (vm_compute; reflexivity).
  exact (fit_single_feature log_at_one eig_unreached init X_column 3 eq_refl Hn).
Defined.

(** ** What the solver returns *)

Lemma argmax_from_bound xs : forall bi best i,
  bi < i -> argmax_from bi best i xs < i + length xs.
Proof.
  induction xs as [|x t IH]; intros bi best i Hbi; cbn [argmax_from length].
  - lia.
  - destruct (negb (x <=? best)%float).
    + destruct (F64.isnan x); [lia|].
      specialize (IH i x (S i) (Nat.lt_succ_diag_r i)). lia.
    + specialize (IH bi best (S i) (Nat.lt_lt_succ_r _ _ Hbi)). lia.
Qed.

Lemma np_argmax_bound xs k : np_argmax xs = Ok k -> k < length xs.
Proof.
  destruct xs as [|x t]; cbn [np_argmax length]; [discriminate|].
  intros H. inversion H; subst k. destruct (F64.isnan x); [lia|].
  pose proof (argmax_from_bound t 0 x 1 (Nat.lt_0_succ 0)). lia.
Qed.

(** X5: [find_cov_ij] lets the exception of [np.roots] through, raises
    [ValueError] (from [np.argmax]) when [np.roots] finds no root, and in
    every other case returns the real part of one of the roots: it never
    returns a value that is not a candidate. *)
Theorem find_cov_ij_outcome np_log eigvals X_ij S_ii S_jj :
  match np_roots eigvals
          (coef (count_m X_ij) (sum11 X_ij) (sum22 X_ij) (sum12 X_ij) S_ii S_jj) with
  | Raise e => find_cov_ij np_log eigvals X_ij S_ii S_jj = Raise e
  | Ok [] => find_cov_ij np_log eigvals X_ij S_ii S_jj = Raise ValueError
  | Ok zs =>
      exists k, k < length zs /\
        find_cov_ij np_log eigvals X_ij S_ii S_jj = Ok (fst (nth k zs (nan, nan)))
  end.
Proof.
  unfold find_cov_ij.
  destruct (np_roots eigvals
              (coef (count_m X_ij) (sum11 X_ij) (sum22 X_ij) (sum12 X_ij) S_ii S_jj))
    as [zs|e]; cbn [bind]; [|reflexivity].
  destruct zs as [|z zs]; [reflexivity|].
  set (roots := np_real (z :: zs)).
  set (etas := map (eta np_log (count_m X_ij) (sum11 X_ij) (sum12 X_ij) S_ii S_jj) roots).
  destruct (np_argmax etas) as [k|e] eqn:Hk.
  - cbn [bind]. exists k. split.
    + apply np_argmax_bound in Hk. unfold etas, roots, np_real in Hk.
      rewrite !length_map in Hk. exact Hk.
    + unfold roots, np_real. f_equal.
      change nan with (fst (nan, nan)) at 1. apply map_nth.
  - unfold etas, roots, np_real in Hk. cbn [map np_argmax] in Hk. discriminate Hk.
Qed.

(** ** The order of float64 *)

Section FloatOrder.

Local Open Scope Z_scope.

Lemma isnan_spec (x : float) :
  F64.isnan x = match Prim2SF x with S754_nan => true | _ => false end.
Proof.
  unfold F64.isnan, is_nan. rewrite FloatAxioms.eqb_spec.
  destruct (Prim2SF x) as [[]|[]| |s m e]; try reflexivity.
  unfold SFeqb, SFcompare. rewrite Z.compare_refl, Pos.compare_cont_refl.
  destruct s; reflexivity.
Qed.

Lemma SFcompare_key (x y : spec_float) :
  x <> S754_nan -> y <> S754_nan ->
  (SFleb x y = true <-> lex_le (sf_key x) (sf_key y)) /\
  (SFltb x y = true <-> lex_lt (sf_key x) (sf_key y)).
Proof.
  intros Hx Hy. unfold SFleb, SFltb, SFcompare, lex_le, lex_lt.
  destruct x as [[]|[]| |[] mx ex], y as [[]|[]| |[] my ey];
    try congruence; cbn [sf_key fst snd];
    try (split; split; intros H; try discriminate H; try reflexivity; lia).
  - change (Pos.compare_cont Eq mx my) with (Pos.compare mx my).
    destruct (Z.compare_spec ex ey), (Pos.compare_spec mx my); cbn [CompOpp];
      split; split; intros Hc; try discriminate Hc; try reflexivity; try lia.
  - change (Pos.compare_cont Eq mx my) with (Pos.compare mx my).
    destruct (Z.compare_spec ex ey), (Pos.compare_spec mx my); cbn [CompOpp];
      split; split; intros Hc; try discriminate Hc; try reflexivity; try lia.
Qed.

Lemma not_nan_spec (x : float) : F64.isnan x = false -> Prim2SF x <> S754_nan.
Proof. rewrite isnan_spec. intros H E. rewrite E in H. discriminate. Qed.

Lemma leb_key (x y : float) :
  F64.isnan x = false -> F64.isnan y = false ->
  ((x <=? y)%float = true <-> lex_le (fkey x) (fkey y)) /\
  ((x <? y)%float = true <-> lex_lt (fkey x) (fkey y)).
Proof.
  intros Hx Hy. rewrite FloatAxioms.leb_spec, FloatAxioms.ltb_spec.
  apply SFcompare_key; apply not_nan_spec; assumption.
Qed.

Lemma leb_nan_l (x y : float) : F64.isnan x = true -> (x <=? y)%float = false.
Proof.
  rewrite isnan_spec, FloatAxioms.leb_spec. intros H.
  destruct (Prim2SF x); try discriminate H. reflexivity.
Qed.

End FloatOrder.

(** ** The candidate that [np.argmax] selects *)

Lemma argmax_from_nan xs : forall bi best i,
  F64.isnan best = false ->
  (exists x, In x xs /\ F64.isnan x = true) ->
  exists d,
    argmax_from bi best i xs = i + d /\ d < length xs /\
    F64.isnan (nth d xs 0%float) = true /\
    (forall j, j < d -> F64.isnan (nth j xs 0%float) = false).
Proof.
  induction xs as [|x t IH]; intros bi best i Hbest (y & Hy & Hnan).
  - destruct Hy.
  - cbn [argmax_from]. destruct (F64.isnan x) eqn:Hx.
    + rewrite (leb_nan_l x best Hx). cbn [negb].
      exists 0. cbn [nth length]. repeat split; try lia. exact Hx.
    + assert (Ht : exists x0, In x0 t /\ F64.isnan x0 = true).
      { destruct Hy as [->|Hy]; [congruence|]. exists y. split; assumption. }
      assert (Hstep : forall bi' best', F64.isnan best' = false ->
                exists d, argmax_from bi' best' (S i) t = i + d /\ d < length (x :: t) /\
                  F64.isnan (nth d (x :: t) 0%float) = true /\
                  (forall j, j < d -> F64.isnan (nth j (x :: t) 0%float) = false)).
      { intros bi' best' Hb'. destruct (IH bi' best' (S i) Hb' Ht) as (d & Hd & Hlen & Hn & Hbefore).
        exists (S d). cbn [nth length]. repeat split; try lia; [exact Hn|].
        intros [|j] Hj; [exact Hx|]. apply Hbefore. lia. }
      destruct (negb (x <=? best)%float); [apply Hstep; exact Hx|apply Hstep; exact Hbest].
Qed.

Lemma np_argmax_first_nan xs :
  (exists x, In x xs /\ F64.isnan x = true) ->
  exists k,
    np_argmax xs = Ok k /\ k < length xs /\
    F64.isnan (nth k xs 0%float) = true /\
    (forall j, j < k -> F64.isnan (nth j xs 0%float) = false).
Proof.
  intros (y & Hy & Hnan). destruct xs as [|x t]; [destruct Hy|].
  cbn [np_argmax]. destruct (F64.isnan x) eqn:Hx.
  - exists 0. cbn [nth length]. repeat split; try lia. exact Hx.
  - assert (Ht : exists x0, In x0 t /\ F64.isnan x0 = true).
    { destruct Hy as [->|Hy]; [congruence|]. exists y. split; assumption. }
    destruct (argmax_from_nan t 0 x 1 Hx Ht) as (d & Hd & Hlen & Hn & Hbefore).
    exists (S d). rewrite Hd. cbn [nth length]. repeat split; try lia; [exact Hn|].
    intros [|j] Hj; [exact Hx|]. apply Hbefore. lia.
Qed.

Lemma argmax_from_max xs : forall pre bi best,
  bi < length pre -> nth bi pre 0%float = best ->
  (forall x, In x (pre ++ xs) -> F64.isnan x = false) ->
  (forall j, j < length pre -> (nth j pre 0 <=? best)%float = true) ->
  (forall j, j < bi -> (nth j pre 0 <? best)%float = true) ->
  let k := argmax_from bi best (length pre) xs in
  k < length (pre ++ xs) /\
  (forall j, j < length (pre ++ xs) ->
     (nth j (pre ++ xs) 0 <=? nth k (pre ++ xs) 0)%float = true) /\
  (forall j, j < k -> (nth j (pre ++ xs) 0 <? nth k (pre ++ xs) 0)%float = true).
Proof.
  induction xs as [|x t IH]; intros pre bi best Hbi Hbest Hnn Hle Hlt.
  - cbn [argmax_from]. rewrite app_nil_r. rewrite Hbest. repeat split; assumption.
  - cbn [argmax_from].
    assert (Hxn : F64.isnan x = false) by (apply Hnn; apply in_or_app; right; left; reflexivity).
    assert (Hbn : F64.isnan best = false).
    { apply Hnn. apply in_or_app. left. rewrite <- Hbest. apply nth_In. exact Hbi. }
    assert (Hpre : forall y, In y pre -> F64.isnan y = false)
      by (intros y Hy; apply Hnn; apply in_or_app; left; exact Hy).
    assert (Happ : pre ++ x :: t = (pre ++ [x]) ++ t) by (rewrite <- app_assoc; reflexivity).
    assert (Hlen : length (pre ++ [x]) = S (length pre)) by (rewrite length_app; cbn; lia).
    assert (Hnth_old : forall j, j < length pre -> nth j (pre ++ [x]) 0%float = nth j pre 0%float)
      by (intros j Hj; apply app_nth1; exact Hj).
    assert (Hnth_new : nth (length pre) (pre ++ [x]) 0%float = x)
      by (rewrite app_nth2, Nat.sub_diag by lia; reflexivity).
    rewrite Happ in *. rewrite Hxn.
    destruct (x <=? best)%float eqn:Hcmp; cbn [negb].
    + rewrite <- Hlen. apply IH.
      * lia.
      * rewrite Hnth_old by exact Hbi. exact Hbest.
      * exact Hnn.
      * intros j Hj. rewrite Hlen in Hj.
        destruct (Nat.eq_dec j (length pre)) as [->|Hne].
        -- rewrite Hnth_new. exact Hcmp.
        -- rewrite Hnth_old by lia. apply Hle. lia.
      * intros j Hj. rewrite Hnth_old by lia. apply Hlt. exact Hj.
    + rewrite <- Hlen. apply IH.
      * lia.
      * exact Hnth_new.
      * exact Hnn.
      * intros j Hj. rewrite Hlen in Hj.
        destruct (Nat.eq_dec j (length pre)) as [->|Hne].
        -- rewrite Hnth_new. apply (leb_key x x Hxn Hxn). unfold lex_le. lia.
        -- rewrite Hnth_old by lia.
           assert (Hyn : F64.isnan (nth j pre 0%float) = false) by (apply Hpre, nth_In; lia).
           pose proof (Hle j ltac:(lia)) as Hjb.
           apply (leb_key _ _ Hyn Hbn) in Hjb.
           assert (Hbx : ~ lex_le (fkey x) (fkey best)).
           { intros Hc. apply (leb_key x best Hxn Hbn) in Hc. congruence. }
           apply (leb_key _ _ Hyn Hxn). unfold lex_le in *. lia.
      * intros j Hj. rewrite Hnth_old by lia.
        assert (Hyn : F64.isnan (nth j pre 0%float) = false) by (apply Hpre, nth_In; lia).
        pose proof (Hle j ltac:(lia)) as Hjb.
        apply (leb_key _ _ Hyn Hbn) in Hjb.
        assert (Hbx : ~ lex_le (fkey x) (fkey best)).
        { intros Hc. apply (leb_key x best Hxn Hbn) in Hc. congruence. }
        apply (leb_key _ _ Hyn Hxn). unfold lex_le, lex_lt in *. lia.
Qed.

Lemma np_argmax_first_max xs :
  xs <> [] -> (forall x, In x xs -> F64.isnan x = false) ->
  exists k,
    np_argmax xs = Ok k /\ k < length xs /\
    (forall j, j < length xs -> (nth j xs 0 <=? nth k xs 0)%float = true) /\
    (forall j, j < k -> (nth j xs 0 <? nth k xs 0)%float = true).
Proof.
  intros Hne Hnn. destruct xs as [|x t]; [congruence|].
  assert (Hx : F64.isnan x = false) by (apply Hnn; left; reflexivity).
  cbn [np_argmax]. rewrite Hx.
  destruct (argmax_from_max t [x] 0 x (Nat.lt_0_succ 0) eq_refl Hnn) as (Hk & Hmax & Hfirst).
  - intros [|j] Hj; [|cbn in Hj; lia]. cbn [nth].
    apply (leb_key x x Hx Hx). unfold lex_le. lia.
  - intros j Hj. lia.
  - exists (argmax_from 0 x 1 t). cbn [length app] in *. repeat split; assumption.
Qed.

(** ** The selection among the candidates *)

Lemma find_cov_ij_argmax np_log eigvals X_ij S_ii S_jj zs :
  np_roots eigvals (solver_coef X_ij S_ii S_jj) = Ok zs ->
  find_cov_ij np_log eigvals X_ij S_ii S_jj =
    (k <- np_argmax (map (objective np_log X_ij S_ii S_jj) (np_real zs)) ;;
     Ok (nth k (np_real zs) nan)).
Proof.
  unfold solver_coef. intros H. unfold find_cov_ij. rewrite H. reflexivity.
Qed.

Lemma nth_objective np_log X_ij S_ii S_jj roots j :
  j < length roots ->
  nth j (map (objective np_log X_ij S_ii S_jj) roots) 0%float
  = objective np_log X_ij S_ii S_jj (nth j roots nan).
Proof.
  intros Hj.
  rewrite (nth_indep _ 0%float (objective np_log X_ij S_ii S_jj nan))
    by (rewrite length_map; exact Hj).
  apply map_nth.
Qed.

(** X6: when no candidate has a NaN objective, [find_cov_ij] returns a
    candidate whose objective is at least the objective of every candidate,
    and the first such candidate in the order of [np.roots]: every earlier
    candidate has a strictly smaller objective. *)
Theorem find_cov_ij_first_maximum np_log eigvals X_ij S_ii S_jj zs :
  np_roots eigvals (solver_coef X_ij S_ii S_jj) = Ok zs ->
  zs <> [] ->
  (forall r, In r (np_real zs) -> F64.isnan (objective np_log X_ij S_ii S_jj r) = false) ->
  exists k,
    k < length zs /\
    find_cov_ij np_log eigvals X_ij S_ii S_jj = Ok (nth k (np_real zs) nan) /\
    (forall j, j < length zs ->
       (objective np_log X_ij S_ii S_jj (nth j (np_real zs) nan)
        <=? objective np_log X_ij S_ii S_jj (nth k (np_real zs) nan))%float = true) /\
    (forall j, j < k ->
       (objective np_log X_ij S_ii S_jj (nth j (np_real zs) nan)
        <? objective np_log X_ij S_ii S_jj (nth k (np_real zs) nan))%float = true).
Proof.
  intros Hroots Hne Hnn.
  rewrite (find_cov_ij_argmax np_log eigvals X_ij S_ii S_jj zs Hroots).
  set (roots := np_real zs) in *.
  assert (Hlen : length roots = length zs) by (unfold roots, np_real; apply length_map).
  destruct (np_argmax_first_max (map (objective np_log X_ij S_ii S_jj) roots))
    as (k & Hk & Hkl & Hmax & Hfirst).
  - intros Hnil. apply map_eq_nil in Hnil. unfold roots, np_real in Hnil.
    apply map_eq_nil in Hnil. contradiction.
  - intros x Hx. apply in_map_iff in Hx. destruct Hx as (r & <- & Hr). apply Hnn. exact Hr.
  - rewrite length_map in Hkl, Hmax.
    exists k. rewrite Hk. cbn [bind]. split; [lia|]. split; [reflexivity|]. split.
    + intros j Hj. rewrite <- !nth_objective by lia. apply Hmax. lia.
    + intros j Hj. rewrite <- !nth_objective by lia. apply Hfirst. exact Hj.
Qed.

(** X7: when some candidate has a NaN objective, [find_cov_ij] returns the
    first candidate whose objective is NaN, whatever the objectives of the
    other candidates are. *)
Theorem find_cov_ij_nan_objective np_log eigvals X_ij S_ii S_jj zs :
  np_roots eigvals (solver_coef X_ij S_ii S_jj) = Ok zs ->
  (exists r, In r (np_real zs) /\ F64.isnan (objective np_log X_ij S_ii S_jj r) = true) ->
  exists k,
    k < length zs /\
    find_cov_ij np_log eigvals X_ij S_ii S_jj = Ok (nth k (np_real zs) nan) /\
    F64.isnan (objective np_log X_ij S_ii S_jj (nth k (np_real zs) nan)) = true /\
    (forall j, j < k ->
       F64.isnan (objective np_log X_ij S_ii S_jj (nth j (np_real zs) nan)) = false).
Proof.
  intros Hroots (r & Hr & Hnan).
  rewrite (find_cov_ij_argmax np_log eigvals X_ij S_ii S_jj zs Hroots).
  set (roots := np_real zs) in *.
  assert (Hlen : length roots = length zs) by (unfold roots, np_real; apply length_map).
  destruct (np_argmax_first_nan (map (objective np_log X_ij S_ii S_jj) roots))
    as (k & Hk & Hkl & Hkn & Hbefore).
  - exists (objective np_log X_ij S_ii S_jj r). split; [|exact Hnan].
    apply in_map. exact Hr.
  - rewrite length_map in Hkl.
    exists k. rewrite Hk. cbn [bind]. split; [lia|]. split; [reflexivity|]. split.
    + rewrite <- nth_objective by lia. exact Hkn.
    + intros j Hj. rewrite <- nth_objective by lia. apply Hbefore. exact Hj.
Qed.

Lemma find_cov_ij_first_maximum_witness :
  exists k,
    k < 3 /\
    find_cov_ij log_example eig_example (pair_rows X_slip 3 2 0 1) 2 1
      = Ok (nth k [-2.5; -2.5; -1]%float nan) /\
    (forall j, j < 3 ->
       (objective log_example (pair_rows X_slip 3 2 0 1) 2 1 (nth j [-2.5; -2.5; -1]%float nan)
        <=? objective log_example (pair_rows X_slip 3 2 0 1) 2 1
              (nth k [-2.5; -2.5; -1]%float nan))%float = true) /\
    (forall j, j < k ->
       (objective log_example (pair_rows X_slip 3 2 0 1) 2 1 (nth j [-2.5; -2.5; -1]%float nan)
        <? objective log_example (pair_rows X_slip 3 2 0 1) 2 1
             (nth k [-2.5; -2.5; -1]%float nan))%float = true).
Proof.
  assert (Hroots : np_roots eig_example (solver_coef (pair_rows X_slip 3 2 0 1) 2 1)
                   = Ok [(-2.5, 0x1.32eee75770416p+1); (-2.5, -0x1.32eee75770416p+1);
                         (-1, 0)]%float) by (vm_compute; reflexivity).
  assert (Hne : [(-2.5, 0x1.32eee75770416p+1); (-2.5, -0x1.32eee75770416p+1);
                 (-1, 0)]%float <> []) by discriminate.
  assert (Hnn : forall r,
            In r (np_real [(-2.5, 0x1.32eee75770416p+1); (-2.5, -0x1.32eee75770416p+1);
                           (-1, 0)]%float) ->
            F64.isnan (objective log_example (pair_rows X_slip 3 2 0 1) 2 1 r) = false).
  { intros r [<-|[<-|[<-|[]]]]; vm_compute; reflexivity. }
  exact (find_cov_ij_first_maximum log_example eig_example (pair_rows X_slip 3 2 0 1) 2 1 _
           Hroots Hne Hnn).
Defined.

Lemma find_cov_ij_nan_objective_witness :
  exists k,
    k < 3 /\
    find_cov_ij log_at_one eig_example (pair_rows X_slip 3 2 0 1) 2 1
      = Ok (nth k [-2.5; -2.5; -1]%float nan) /\
    F64.isnan (objective log_at_one (pair_rows X_slip 3 2 0 1) 2 1
                 (nth k [-2.5; -2.5; -1]%float nan)) = true /\
    (forall j, j < k ->
       F64.isnan (objective log_at_one (pair_rows X_slip 3 2 0 1) 2 1
                    (nth j [-2.5; -2.5; -1]%float nan)) = false).
Proof.
  assert (Hroots : np_roots eig_example (solver_coef (pair_rows X_slip 3 2 0 1) 2 1)
                   = Ok [(-2.5, 0x1.32eee75770416p+1); (-2.5, -0x1.32eee75770416p+1);
                         (-1, 0)]%float) by (vm_compute; reflexivity).
  assert (Hnan : exists r,
            In r (np_real [(-2.5, 0x1.32eee75770416p+1); (-2.5, -0x1.32eee75770416p+1);
                           (-1, 0)]%float) /\
            F64.isnan (objective log_at_one (pair_rows X_slip 3 2 0 1) 2 1 r) = true).
  { exists (-1)%float. split; [right; right; left; reflexivity|vm_compute; reflexivity]. }
  exact (find_cov_ij_nan_objective log_at_one eig_example (pair_rows X_slip 3 2 0 1) 2 1 _
           Hroots Hnan).
Defined.

(** ** Candidates with a conditional variance that is not positive *)

Lemma of_int_neg_count (n : nat) :
  (0 < Z.of_nat n < 2 ^ 53)%Z ->
  (F64.of_int (- Z.of_nat n) <? 0)%float = true.
Proof.
  intros Hn.
  assert (Heq : F64.of_int (- Z.of_nat n) = (- F64.of_nat n)%float).
  { unfold F64.of_nat, F64.of_int.
    destruct (Z.ltb_spec (- Z.of_nat n) 0) as [_|Hge]; [|lia].
    destruct (Z.ltb_spec (Z.of_nat n) 0) as [Hlt|_]; [lia|].
    rewrite Z.opp_involutive. reflexivity. }
  rewrite Heq, FloatAxioms.ltb_spec, FloatAxioms.opp_spec.
  destruct (of_nat_spec n Hn) as (mc & ec & Hc & _). rewrite Hc. reflexivity.
Qed.

Lemma leb_infinity (y : float) : (infinity <=? y)%float = true -> y = infinity.
Proof.
  rewrite FloatAxioms.leb_spec. change (Prim2SF infinity) with (S754_infinity false).
  intros H. apply Prim2SF_inj. change (Prim2SF infinity) with (S754_infinity false).
  destruct (Prim2SF y) as [[]|[]| |[] m e]; try discriminate H. reflexivity.
Qed.

(** X8: with at least one jointly observed row, the objective of a candidate
    whose conditional variance [scond] is not positive is [+inf] or NaN
    (line 115 multiplies the [-inf] of the masked logarithm by [-m]).
    Hence, as soon as one candidate is infeasible, the candidate that
    [find_cov_ij] returns has an objective that is [+inf] or NaN: a feasible
    candidate with a finite objective is never preferred to it. *)
Theorem infeasible_candidate_preferred np_log eigvals X_ij S_ii S_jj zs :
  (0 < count_m X_ij < 2 ^ 53)%Z ->
  np_roots eigvals (solver_coef X_ij S_ii S_jj) = Ok zs ->
  (exists r, In r (np_real zs) /\ (0 <? scond_of S_ii S_jj r)%float = false) ->
  (forall r, (0 <? scond_of S_ii S_jj r)%float = false ->
     objective np_log X_ij S_ii S_jj r = infinity \/
     objective np_log X_ij S_ii S_jj r = nan) /\
  exists k,
    k < length zs /\
    find_cov_ij np_log eigvals X_ij S_ii S_jj = Ok (nth k (np_real zs) nan) /\
    (objective np_log X_ij S_ii S_jj (nth k (np_real zs) nan) = infinity \/
     objective np_log X_ij S_ii S_jj (nth k (np_real zs) nan) = nan).
Proof.
  intros Hm Hroots (r0 & Hr0 & Hsc).
  assert (Hinf : forall r, (0 <? scond_of S_ii S_jj r)%float = false ->
            objective np_log X_ij S_ii S_jj r = infinity \/
            objective np_log X_ij S_ii S_jj r = nan).
  { intros r Hr. unfold objective. apply eta_infeasible; [|exact Hr].
    unfold count_m in *. apply of_int_neg_count. exact Hm. }
  split; [exact Hinf|].
  rewrite (find_cov_ij_argmax np_log eigvals X_ij S_ii S_jj zs Hroots).
  set (roots := np_real zs) in *.
  set (etas := map (objective np_log X_ij S_ii S_jj) roots).
  assert (Hlen : length roots = length zs) by (unfold roots, np_real; apply length_map).
  destruct (existsb F64.isnan etas) eqn:Hex.
  - apply existsb_exists in Hex.
    destruct (np_argmax_first_nan etas Hex) as (k & Hk & Hkl & Hkn & _).
    unfold etas in Hkl. rewrite length_map in Hkl.
    exists k. rewrite Hk. cbn [bind]. split; [lia|]. split; [reflexivity|].
    right. unfold etas in Hkn. rewrite nth_objective in Hkn by lia.
    rewrite isnan_spec in Hkn.
    apply Prim2SF_inj. change (Prim2SF nan) with S754_nan.
    destruct (Prim2SF (objective np_log X_ij S_ii S_jj (nth k roots nan)));
      try discriminate Hkn. reflexivity.
  - assert (Hnn : forall x, In x etas -> F64.isnan x = false).
    { intros x Hx. destruct (F64.isnan x) eqn:E; [|reflexivity].
      assert (existsb F64.isnan etas = true) by (apply existsb_exists; exists x; auto).
      congruence. }
    assert (Hne : etas <> []).
    { intros Hnil. apply map_eq_nil in Hnil. rewrite Hnil in Hr0. destruct Hr0. }
    destruct (np_argmax_first_max etas Hne Hnn) as (k & Hk & Hkl & Hmax & _).
    unfold etas in Hkl, Hmax. rewrite length_map in Hkl, Hmax.
    exists k. rewrite Hk. cbn [bind]. split; [lia|]. split; [reflexivity|].
    destruct (In_nth roots r0 nan Hr0) as (j0 & Hj0 & Hnth).
    pose proof (Hmax j0 Hj0) as Hle. rewrite !nth_objective in Hle by lia.
    rewrite Hnth in Hle.
    destruct (Hinf r0 Hsc) as [Hi|Hn].
    + rewrite Hi in Hle. left. apply leb_infinity. exact Hle.
    + exfalso. assert (Hc : F64.isnan (objective np_log X_ij S_ii S_jj r0) = false).
      { apply Hnn. unfold etas. apply in_map. exact Hr0. }
      rewrite Hn in Hc. discriminate Hc.
Qed.

Lemma infeasible_candidate_preferred_witness :
  exists k,
    k < 3 /\
    find_cov_ij log_example eig_example (pair_rows X_slip 3 2 0 1) 2 1
      = Ok (nth k [-2.5; -2.5; -1]%float nan) /\
    (objective log_example (pair_rows X_slip 3 2 0 1) 2 1 (nth k [-2.5; -2.5; -1]%float nan)
       = infinity \/
     objective log_example (pair_rows X_slip 3 2 0 1) 2 1 (nth k [-2.5; -2.5; -1]%float nan)
       = nan).
Proof.
  assert (Hm : (0 < count_m (pair_rows X_slip 3 2 0 1) < 2 ^ 53)%Z)
    by (vm_compute; split; reflexivity).
  assert (Hroots : np_roots eig_example (solver_coef (pair_rows X_slip 3 2 0 1) 2 1)
                   = Ok [(-2.5, 0x1.32eee75770416p+1); (-2.5, -0x1.32eee75770416p+1);
                         (-1, 0)]%float) by (vm_compute; reflexivity).
  assert (Hinf : exists r,
            In r (np_real [(-2.5, 0x1.32eee75770416p+1); (-2.5, -0x1.32eee75770416p+1);
                           (-1, 0)]%float) /\
            (0 <? scond_of 2 1 r)%float = false).
  { exists (-2.5)%float. split; [left; reflexivity|vm_compute; reflexivity]. }
  exact (proj2 (infeasible_candidate_preferred log_example eig_example
                  (pair_rows X_slip 3 2 0 1) 2 1 _ Hm Hroots Hinf)).
Defined.

(** ** The entries off the diagonal *)

(** Adding [0.0] keeps every float but the negative zero. *)
Lemma add_zero_r (c : float) :
  (c + 0)%float = if (c =? 0)%float then 0%float else c.
Proof.
  rewrite FloatAxioms.eqb_spec. apply Prim2SF_inj.
  rewrite FloatAxioms.add_spec. change (Prim2SF 0) with (S754_zero false).
  destruct (Prim2SF c) as [[]|[]| |[] m e] eqn:Hc; cbn; try reflexivity;
    rewrite Hc; reflexivity.
Qed.

(** X9: in the matrix that [fit] returns, the two entries of a pair of
    features [i < j] hold the value computed for the pair from the two
    variances: the covariance returned by [find_cov_ij], or NaN when one of
    the variances is zero. The addition of line 63 ([S + S.T], the other
    triangle holding [0.0]) leaves this value as it is, except that a
    negative zero is stored as [0.0]. *)
Theorem fit_off_diagonal np_log eigvals self X n p R i j :
  shape X = [n; p] ->
  snd (fit np_log eigvals self X) = Ok R ->
  i < j -> j < p ->
  exists c,
    pair_value np_log eigvals X n p i j = Ok c /\
    mget R i j = (if (c =? 0)%float then 0%float else c) /\
    mget R j i = (if (c =? 0)%float then 0%float else c).
Proof.
  intros Hshape Hfit Hij Hj.
  destruct (fit_entries np_log eigvals self X n p R Hshape Hfit) as (_ & _ & Hoff).
  destruct (Hoff i j Hij Hj) as (c & Hc & Hu & Hl).
  exists c. rewrite <- (cell_at_variances np_log eigvals X n p i j) by lia.
  split; [exact Hc|]. split.
  - rewrite Hu. apply add_zero_r.
  - rewrite Hl, float_add_comm. apply add_zero_r.
Qed.

Lemma fit_off_diagonal_witness :
  exists c,
    pair_value log_example eig_example X_slip 3 2 0 1 = Ok c /\
    mget [[2; -2.5]; [-2.5; 1]]%float 0 1 = (if (c =? 0)%float then 0%float else c) /\
    mget [[2; -2.5]; [-2.5; 1]]%float 1 0 = (if (c =? 0)%float then 0%float else c).
Proof.
  apply (fit_off_diagonal log_example eig_example init X_slip 3 2
           [[2; -2.5]; [-2.5; 1]]%float 0 1).
  - reflexivity.
  - vm_compute. reflexivity.
  - lia.
  - lia.
Defined.

(** ** The pairwise summation of [np.sum] *)

Lemma neg_zero_add (x : float) : (-0 + x)%float = x.
Proof.
  apply Prim2SF_inj. rewrite FloatAxioms.add_spec.
  change (Prim2SF (-0)) with (S754_zero true).
  destruct (Prim2SF x) as [[]|[]| |[] m e]; reflexivity.
Qed.

Lemma cut_bounds (n : nat) :
  128 < n -> 0 < n / 2 - (n / 2) mod 8 < n.
Proof.
  intros Hn.
  pose proof (Nat.div_mod_eq n 2) as H2.
  pose proof (Nat.mod_upper_bound n 2 ltac:(lia)) as Hm2.
  pose proof (Nat.mod_upper_bound (n / 2) 8 ltac:(lia)) as Hm8.
  lia.
Qed.

(** The nesting of the recursive calls never exceeds the bound: any bound
    that is at least the length gives the same sum. *)
Lemma pairwise_sum_rec_depth (d : nat) : forall d' xs,
  length xs <= d -> length xs <= d' ->
  pairwise_sum_rec d xs = pairwise_sum_rec d' xs.
Proof.
  induction d as [|d IH]; intros d' xs Hd Hd'.
  - destruct xs; [|cbn [length] in Hd; lia]. destruct d'; reflexivity.
  - destruct d' as [|d'].
    + destruct xs; [|cbn [length] in Hd'; lia]. reflexivity.
    + cbn [pairwise_sum_rec].
      destruct (Nat.ltb (length xs) 8); [reflexivity|].
      destruct (Nat.leb_spec (length xs) 128) as [|Hbig]; [reflexivity|].
      pose proof (cut_bounds (length xs) Hbig) as Hcut.
      rewrite (IH d' (firstn _ xs)), (IH d' (skipn _ xs)); try reflexivity;
        rewrite ?length_firstn, ?length_skipn; lia.
Qed.

(** The equation of [DOUBLE_pairwise_sum]. *)
Lemma pairwise_sum_eq (xs : list float) :
  pairwise_sum xs =
    let n := length xs in
    if Nat.ltb n 8 then sum_loop (-0)%float xs
    else if Nat.leb n 128 then unrolled_sum xs
    else
      let n2 := n / 2 - (n / 2) mod 8 in
      (pairwise_sum (firstn n2 xs) + pairwise_sum (skipn n2 xs))%float.
Proof.
  unfold pairwise_sum. cbv zeta.
  destruct (length xs) as [|d] eqn:Hlen.
  - destruct xs; [reflexivity|discriminate Hlen].
  - cbn [pairwise_sum_rec]. rewrite Hlen.
    destruct (Nat.ltb (S d) 8); [reflexivity|].
    destruct (Nat.leb_spec (S d) 128) as [|Hbig]; [reflexivity|].
    pose proof (cut_bounds (S d) Hbig) as Hcut.
    f_equal; apply pairwise_sum_rec_depth;
      rewrite ?length_firstn, ?length_skipn; lia.
Qed.

Section SumClosure.

Variable P : float -> Prop.
Hypothesis P_zero : P 0%float.
Hypothesis P_add : forall x y, P x -> P y -> P (x + y)%float.

Lemma sum_loop_closed xs : forall res, P res -> Forall P xs -> P (sum_loop res xs).
Proof.
  unfold sum_loop. induction xs as [|x t IH]; intros res Hres Hxs; [exact Hres|].
  inversion Hxs; subst. cbn [fold_left]. apply IH; auto.
Qed.

Lemma sum_loop_start xs : xs <> [] -> Forall P xs -> P (sum_loop (-0)%float xs).
Proof.
  intros Hne Hxs. destruct xs as [|x t]; [contradiction|].
  inversion Hxs; subst. unfold sum_loop. cbn [fold_left]. rewrite neg_zero_add.
  apply sum_loop_closed; assumption.
Qed.

Lemma add_block_closed r : forall blk, Forall P r -> Forall P blk -> Forall P (add_block r blk).
Proof.
  unfold add_block. induction r as [|a r IH]; intros blk Hr Hb; [constructor|].
  destruct blk as [|b blk]; [constructor|].
  inversion Hr; inversion Hb; subst. cbn [combine map fst snd]. constructor; auto.
Qed.

Lemma Forall_firstn_skipn (k : nat) (xs : list float) :
  Forall P xs -> Forall P (firstn k xs) /\ Forall P (skipn k xs).
Proof.
  intros H. rewrite <- (firstn_skipn k xs) in H. apply Forall_app in H. exact H.
Qed.

Lemma accumulate_closed k : forall r xs,
  Forall P r -> Forall P xs ->
  Forall P (fst (accumulate k r xs)) /\ Forall P (snd (accumulate k r xs)).
Proof.
  induction k as [|k IH]; intros r xs Hr Hxs; [split; assumption|].
  cbn [accumulate]. destruct (Forall_firstn_skipn 8 xs Hxs) as [Hf Hs].
  apply IH; [apply add_block_closed; assumption|exact Hs].
Qed.

Lemma nth_closed (r : list float) (i : nat) : Forall P r -> P (nth i r 0%float).
Proof.
  intros Hr. destruct (Nat.lt_ge_cases i (length r)) as [Hi|Hi].
  - rewrite Forall_forall in Hr. apply Hr, nth_In, Hi.
  - rewrite nth_overflow by exact Hi. exact P_zero.
Qed.

Lemma unrolled_sum_closed xs : Forall P xs -> P (unrolled_sum xs).
Proof.
  intros Hxs. unfold unrolled_sum.
  destruct (Forall_firstn_skipn 8 xs Hxs) as [Hf Hs].
  destruct (accumulate_closed (length xs / 8 - 1) _ _ Hf Hs) as [Hr Hrest].
  destruct (accumulate _ _ _) as [r rest]. cbn [fst snd] in Hr, Hrest.
  apply sum_loop_closed; [|exact Hrest].
  repeat apply P_add; apply nth_closed; exact Hr.
Qed.

Lemma pairwise_sum_rec_closed d : forall xs,
  xs <> [] -> Forall P xs -> P (pairwise_sum_rec d xs).
Proof.
  induction d as [|d IH]; intros xs Hne Hxs; cbn [pairwise_sum_rec].
  - destruct (Nat.ltb (length xs) 8); [apply sum_loop_start; assumption|].
    destruct (Nat.leb (length xs) 128); apply unrolled_sum_closed; exact Hxs.
  - destruct (Nat.ltb (length xs) 8); [apply sum_loop_start; assumption|].
    destruct (Nat.leb_spec (length xs) 128) as [|Hbig]; [apply unrolled_sum_closed; exact Hxs|].
    pose proof (cut_bounds (length xs) Hbig) as Hcut.
    destruct (Forall_firstn_skipn (length xs / 2 - (length xs / 2) mod 8) xs Hxs) as [Hf Hs].
    apply P_add; apply IH; try assumption.
    + intros E. apply (f_equal (@length float)) in E.
      rewrite length_firstn in E. cbn [length] in E. lia.
    + intros E. apply (f_equal (@length float)) in E.
      rewrite length_skipn in E. cbn [length] in E. lia.
Qed.

(** Whatever is true of [0.0] and is kept by the addition is true of the
    sum of an array whose elements have it. *)
Lemma np_sum_closed xs : Forall P xs -> P (np_sum xs).
Proof.
  intros Hxs. destruct xs as [|x t].
  - exact P_zero.
  - unfold np_sum, pairwise_sum. apply P_add; [exact P_zero|].
    apply pairwise_sum_rec_closed; [discriminate|exact Hxs].
Qed.

End SumClosure.

(** ** The sign of a variance *)

Section Sign.

Lemma round_aux_sign s mx ex lx : sign_clear (binary_round_aux prec emax s mx ex lx) = negb s \/
                                  binary_round_aux prec emax s mx ex lx = S754_nan.
Proof.
  unfold binary_round_aux.
  destruct (shr_fexp prec emax mx ex lx) as [mrs e'].
  destruct (shr_fexp prec emax _ e' loc_Exact) as [mrs2 e2].
  destruct (shr_m mrs2); [left; reflexivity| |right; reflexivity].
  destruct (e2 <=? emax - prec)%Z; left; reflexivity.
Qed.

Lemma round_aux_clear mx ex lx : sign_clear (binary_round_aux prec emax false mx ex lx) = true.
Proof.
  destruct (round_aux_sign false mx ex lx) as [H|H]; rewrite H; reflexivity.
Qed.

Lemma normalize_clear m e : (0 <= m)%Z -> sign_clear (binary_normalize prec emax m e false) = true.
Proof.
  intros Hm. destruct m as [|m|m]; [reflexivity| |lia].
  unfold binary_normalize, binary_round.
  destruct (shl_align m e _) as [mz ez]. apply round_aux_clear.
Qed.

Lemma SFadd_clear x y :
  sign_clear x = true -> sign_clear y = true -> sign_clear (SFadd prec emax x y) = true.
Proof.
  destruct x as [[]|[]| |[] mx ex], y as [[]|[]| |[] my ey]; try discriminate;
    intros _ _; try reflexivity.
  unfold SFadd. apply normalize_clear. cbn [cond_Zopp]. lia.
Qed.

Lemma SFmul_self_clear x : sign_clear (SFmul prec emax x x) = true.
Proof.
  destruct x as [[]|[]| |[] mx ex]; try reflexivity; cbn [SFmul xorb];
    apply round_aux_clear.
Qed.

Lemma SFdiv_clear x y :
  sign_clear x = true -> sign_clear y = true -> sign_clear (SFdiv prec emax x y) = true.
Proof.
  destruct x as [[]|[]| |[] mx ex], y as [[]|[]| |[] my ey]; try discriminate;
    intros _ _; try reflexivity.
  unfold SFdiv. cbn [xorb]. destruct (SFdiv_core_binary _ _ _ _ _) as [[mz ez] lz].
  apply round_aux_clear.
Qed.

Lemma of_nat_clear (n : nat) : sign_clear (Prim2SF (F64.of_nat n)) = true.
Proof.
  unfold F64.of_nat, F64.of_int.
  destruct (Z.ltb_spec (Z.of_nat n) 0) as [Hlt|_]; [lia|].
  rewrite of_uint63_spec. apply normalize_clear.
  pose proof (Uint63.to_Z_bounded (Uint63.of_Z (Z.of_nat n))). lia.
Qed.

Lemma np_sum_clear (xs : list float) :
  Forall (fun x => sign_clear (Prim2SF x) = true) xs ->
  sign_clear (Prim2SF (np_sum xs)) = true.
Proof.
  apply (np_sum_closed (fun x => sign_clear (Prim2SF x) = true)); [reflexivity|].
  intros x y Hx Hy. rewrite FloatAxioms.add_spec. apply SFadd_clear; assumption.
Qed.

Lemma np_var_clear (xs : list float) : sign_clear (Prim2SF (np_var xs)) = true.
Proof.
  unfold np_var. rewrite FloatAxioms.div_spec.
  apply SFdiv_clear; [|apply of_nat_clear].
  apply np_sum_clear. rewrite map_map. apply Forall_map, Forall_forall.
  intros a _. rewrite FloatAxioms.mul_spec. apply SFmul_self_clear.
Qed.

Lemma double_half_clear (v : float) :
  sign_clear (Prim2SF v) = true -> sign_clear (Prim2SF ((v + v) * 0.5)) = true.
Proof.
  intros Hv. rewrite FloatAxioms.mul_spec, FloatAxioms.add_spec.
  unfold SF64mul, SF64add.
  pose proof (SFadd_clear _ _ Hv Hv) as Hd.
  change (Prim2SF 0.5) with (S754_finite false 4503599627370496 (-53)).
  destruct (SFadd prec emax (Prim2SF v) (Prim2SF v)) as [[]|[]| |[] m e];
    try discriminate Hd; try reflexivity.
  cbn [SFmul xorb]. apply round_aux_clear.
Qed.

Lemma clear_not_negative (x : float) :
  sign_clear (Prim2SF x) = true -> (x <? 0)%float = false.
Proof.
  rewrite FloatAxioms.ltb_spec. change (Prim2SF 0) with (S754_zero false).
  destruct (Prim2SF x) as [[]|[]| |[] m e]; try discriminate; reflexivity.
Qed.

Lemma clear_not_neg_zero (x : float) :
  sign_clear (Prim2SF x) = true -> x <> (-0)%float.
Proof.
  intros H ->. discriminate H.
Qed.

End Sign.

(** X10: a variance computed by line 43 is never negative and never the
    negative zero: it is a non-negative number, [+inf] or NaN, because it is
    a sum of squares divided by a count. The same holds for every diagonal
    entry of the matrix that [fit] returns, whatever the number of rows. *)
Theorem variance_not_negative np_log eigvals self X n p :
  shape X = [n; p] ->
  (forall i, (variance_of X n p i <? 0)%float = false /\
             variance_of X n p i <> (-0)%float) /\
  (forall R, snd (fit np_log eigvals self X) = Ok R ->
     forall i, i < p -> (mget R i i <? 0)%float = false /\ mget R i i <> (-0)%float).
Proof.
  intros Hshape. split.
  - intros i. pose proof (np_var_clear (observed (column X n p i))) as H.
    split; [apply clear_not_negative|apply clear_not_neg_zero]; exact H.
  - intros R HR i Hi.
    destruct (fit_entries np_log eigvals self X n p R Hshape HR) as (_ & Hd & _).
    rewrite (Hd i Hi).
    pose proof (double_half_clear _ (np_var_clear (observed (column X n p i)))) as H.
    split; [apply clear_not_negative|apply clear_not_neg_zero]; exact H.
Qed.

Lemma variance_not_negative_witness :
  (forall i, (variance_of X_slip 3 2 i <? 0)%float = false /\
             variance_of X_slip 3 2 i <> (-0)%float) /\
  (forall R, snd (fit log_example eig_example init X_slip) = Ok R ->
     forall i, i < 2 -> (mget R i i <? 0)%float = false /\ mget R i i <> (-0)%float).
Proof.
  apply (variance_not_negative log_example eig_example init X_slip 3 2).
  reflexivity.
Defined.

(** ** The number of candidates *)

Lemma negative_ne_zero (x : float) : (x <? 0)%float = true -> F64.ne x 0 = true.
Proof.
  unfold F64.ne. rewrite FloatAxioms.ltb_spec, FloatAxioms.eqb_spec.
  unfold SFltb, SFeqb. destruct (SFcompare (Prim2SF x) (Prim2SF 0)) as [[]|];
    try discriminate. reflexivity.
Qed.

Lemma companion_length (c0 : float) (cs : list float) :
  length (companion (c0 :: cs)) = length cs.
Proof.
  unfold companion, tabulate. rewrite length_map, length_seq. reflexivity.
Qed.

Lemma linalg_eigvals_length eigvals (A : matrix) :
  (forall B, length (eigvals B) = length B) ->
  linalg_eigvals eigvals A = Raise LinAlgError \/
  exists zs, linalg_eigvals eigvals A = Ok zs /\ length zs = length A.
Proof.
  intros Hlen. unfold linalg_eigvals. destruct (forallb (forallb F64.isfinite) A).
  - right. exists (eigvals A). split; [reflexivity|apply Hlen].
  - left. reflexivity.
Qed.

(** A polynomial of degree three has three roots, unless [eigvals] is
    refused a companion matrix that is not finite. *)
Lemma np_roots_cubic eigvals (a b c d : float) :
  (forall B, length (eigvals B) = length B) ->
  F64.ne a 0 = true ->
  np_roots eigvals [a; b; c; d] = Raise LinAlgError \/
  exists zs, np_roots eigvals [a; b; c; d] = Ok zs /\ length zs = 3.
Proof.
  intros Hlen Ha. unfold np_roots. cbn [strip_leading]. rewrite Ha.
  cbn [rev app strip_leading].
  destruct (F64.ne d 0); [|destruct (F64.ne c 0); [|destruct (F64.ne b 0)]];
    cbn [rev app strip_leading length Nat.ltb Nat.leb Nat.sub repeat]; try rewrite Ha;
    cbn [rev app strip_leading length Nat.ltb Nat.leb Nat.sub repeat bind].
  - destruct (linalg_eigvals_length eigvals (companion [a; b; c; d]) Hlen)
      as [->|(zs & -> & Hz)]; [left; reflexivity|right].
    exists (zs ++ []). split; [reflexivity|].
    rewrite length_app, Hz, companion_length. reflexivity.
  - destruct (linalg_eigvals_length eigvals (companion [a; b; c]) Hlen)
      as [->|(zs & -> & Hz)]; [left; reflexivity|right].
    eexists. split; [reflexivity|].
    rewrite length_app, Hz, companion_length. reflexivity.
  - destruct (linalg_eigvals_length eigvals (companion [a; b]) Hlen)
      as [->|(zs & -> & Hz)]; [left; reflexivity|right].
    eexists. split; [reflexivity|].
    rewrite length_app, Hz, companion_length. reflexivity.
  - right. eexists. split; reflexivity.
Qed.

(** X11: with at least one row where both features are observed, line 110
    solves a polynomial whose leading coefficient [-m] is not zero. If
    [eigvals] returns one value for each row of its matrix, [find_cov_ij]
    then either raises [LinAlgError] (the companion matrix is not finite)
    or selects its result among exactly three candidates; the [ValueError]
    of an empty [np.argmax] is raised for [m = 0] only. *)
Theorem find_cov_ij_three_candidates np_log eigvals X_ij S_ii S_jj :
  (forall B, length (eigvals B) = length B) ->
  (0 < count_m X_ij < 2 ^ 53)%Z ->
  (np_roots eigvals (solver_coef X_ij S_ii S_jj) = Raise LinAlgError /\
   find_cov_ij np_log eigvals X_ij S_ii S_jj = Raise LinAlgError) \/
  (exists zs k,
     np_roots eigvals (solver_coef X_ij S_ii S_jj) = Ok zs /\
     length zs = 3 /\ k < 3 /\
     find_cov_ij np_log eigvals X_ij S_ii S_jj = Ok (nth k (np_real zs) nan)).
Proof.
  intros Hlen Hm.
  assert (Hlead : F64.ne (F64.of_int (- count_m X_ij)) 0 = true).
  { apply negative_ne_zero. unfold count_m in *. apply of_int_neg_count. exact Hm. }
  assert (Hcoef : solver_coef X_ij S_ii S_jj =
            [F64.of_int (- count_m X_ij); sum12 X_ij;
             (F64.of_int (count_m X_ij) * S_ii * S_jj - sum22 X_ij * S_ii
              - sum11 X_ij * S_jj)%float;
             (sum12 X_ij * S_ii * S_jj)%float]) by reflexivity.
  destruct (np_roots_cubic eigvals _ (sum12 X_ij)
              (F64.of_int (count_m X_ij) * S_ii * S_jj - sum22 X_ij * S_ii
               - sum11 X_ij * S_jj)%float
              (sum12 X_ij * S_ii * S_jj)%float Hlen Hlead) as [Hr|(zs & Hr & Hz)];
    rewrite <- Hcoef in Hr.
  - left. split; [exact Hr|].
    unfold find_cov_ij. unfold solver_coef in Hr. rewrite Hr. reflexivity.
  - right. exists zs.
    rewrite (find_cov_ij_argmax np_log eigvals X_ij S_ii S_jj zs Hr).
    destruct (np_argmax (map (objective np_log X_ij S_ii S_jj) (np_real zs)))
      as [k|e] eqn:Hk.
    + exists k. apply np_argmax_bound in Hk.
      unfold np_real in Hk. rewrite !length_map, Hz in Hk.
      repeat split; auto.
    + exfalso. destruct zs as [|z zs]; [discriminate Hz|]. discriminate Hk.
Qed.

Lemma find_cov_ij_three_candidates_witness :
  (np_roots eig_diagonal (solver_coef (pair_rows X_slip 3 2 0 1) 2 1) = Raise LinAlgError /\
   find_cov_ij log_example eig_diagonal (pair_rows X_slip 3 2 0 1) 2 1 = Raise LinAlgError) \/
  (exists zs k,
     np_roots eig_diagonal (solver_coef (pair_rows X_slip 3 2 0 1) 2 1) = Ok zs /\
     length zs = 3 /\ k < 3 /\
     find_cov_ij log_example eig_diagonal (pair_rows X_slip 3 2 0 1) 2 1
       = Ok (nth k (np_real zs) nan)).
Proof.
  apply (find_cov_ij_three_candidates log_example eig_diagonal (pair_rows X_slip 3 2 0 1) 2 1).
  - intros B. unfold eig_diagonal. rewrite length_map, length_seq. reflexivity.
  - vm_compute. split; reflexivity.
Defined.

(** * The moments, the cubic and its roots *)





(** * The assembly of the result *)

Lemma madd_transpose_entry p U a b :
  a < p -> b < p ->
  mget (madd p U (transpose p U)) a b = (mget U a b + mget U b a)%float.
Proof.
  intros Ha Hb. unfold madd. rewrite mget_tabulate by assumption.
  unfold transpose. rewrite mget_tabulate by assumption. reflexivity.
Qed.

Lemma halve_diagonal_entry p M a b :
  square p M -> a < p -> b < p ->
  mget (halve_diagonal p M) a b
  = if Nat.eqb a b then (mget M a a * 0.5)%float else mget M a b.
Proof.
  intros HM Ha Hb.
  destruct (fold_diag_update p (fun _ x => (x * 0.5)%float) p 0 M HM (Nat.le_refl _))
    as (_ & Hoff & Hin & _).
  destruct (Nat.eqb_spec a b) as [<-|Hne].
  - apply Hin. lia.
  - apply Hoff. exact Hne.
Qed.

(** C6: [fit] builds its result in this order: the variances on the
    diagonal of a zero matrix, then the loop over the pairs, which stores
    the estimate of the pair [i < j] at [(i, j)] and writes nowhere else,
    then the addition of the transpose, entry [(a, b)] becoming the sum of
    the entries [(a, b)] and [(b, a)], then the halving of the diagonal,
    which leaves the other entries. In the result the estimate of a pair
    is therefore at [(i, j)] and at [(j, i)], and a diagonal entry is the
    double of the variance, halved: this is the variance itself, since a
    variance is a sum divided by a count and its double does not overflow
    (the count being exact in float64, below [2^53] rows). *)
Theorem fit_assembly np_log eigvals self X n p :
  shape X = [n; p] ->
  (Z.of_nat n < 2 ^ 53)%Z ->
  fit np_log eigvals self X =
    match pair_loop np_log eigvals X n p (upper_idx p) (fill_diagonal X n p (zeros p)) with
    | Ok U =>
        let R := halve_diagonal p (madd p U (transpose p U)) in
        (mkDPERS (Some X) (Some R), Ok R)
    | Raise e => (mkDPERS (Some X) (cov self), Raise e)
    end /\
  (forall U,
     pair_loop np_log eigvals X n p (upper_idx p) (fill_diagonal X n p (zeros p)) = Ok U ->
     (forall i j, i < j -> j < p ->
        pair_value np_log eigvals X n p i j = Ok (mget U i j)) /\
     (forall a b, a < p -> b < p -> ~ a < b ->
        mget U a b = if Nat.eqb a b then variance_of X n p a else 0%float)) /\
  (forall U a b, a < p -> b < p ->
     mget (madd p U (transpose p U)) a b = (mget U a b + mget U b a)%float) /\
  (forall M a b, square p M -> a < p -> b < p ->
     mget (halve_diagonal p M) a b
     = if Nat.eqb a b then (mget M a a * 0.5)%float else mget M a b) /\
  (forall R, snd (fit np_log eigvals self X) = Ok R ->
     (forall i, i < p -> mget R i i = variance_of X n p i) /\
     (forall i j, i < j -> j < p ->
        exists c, pair_value np_log eigvals X n p i j = Ok c /\
                  mget R i j = (c + 0)%float /\ mget R j i = (0 + c)%float)).
Proof.
  intros Hshape Hn. split; [|split; [|split; [|split]]].
  - apply fit_2d. exact Hshape.
  - intros U HU.
    destruct (fill_diagonal_spec X n p) as (HD & Hdiag & Hzero).
    destruct (pair_loop_ok np_log eigvals X n p (upper_idx p) _ _ HD
                (fun i j H => proj1 (in_upper_idx p i j) H) (NoDup_upper_idx p) HU)
      as (_ & Hout & Hin).
    split.
    + intros i j Hij Hj.
      rewrite <- (cell_at_variances np_log eigvals X n p i j) by lia.
      apply Hin. rewrite in_upper_idx. lia.
    + intros a b Ha Hb Hab.
      rewrite Hout by (rewrite in_upper_idx; lia).
      destruct (Nat.eqb_spec a b) as [->|Hne].
      * apply Hdiag. exact Hb.
      * apply Hzero; assumption.
  - intros U a b. apply madd_transpose_entry.
  - intros M a b. apply halve_diagonal_entry.
  - intros R Hfit.
    destruct (fit_entries np_log eigvals self X n p R Hshape Hfit) as (_ & Hd & Hoff).
    split.
    + intros i Hi. rewrite Hd by exact Hi. apply half_double.
      apply variance_of_doubling_safe. exact Hn.
    + intros i j Hij Hj. destruct (Hoff i j Hij Hj) as (c & Hc & Hu & Hl).
      exists c. rewrite <- (cell_at_variances np_log eigvals X n p i j) by lia.
      auto.
Qed.

Lemma fit_assembly_witness :
  (forall i, i < 2 -> mget [[2; -2.5]; [-2.5; 1]]%float i i = variance_of X_slip 3 2 i) /\
  (forall i j, i < j -> j < 2 ->
     exists c, pair_value log_example eig_example X_slip 3 2 i j = Ok c /\
               mget [[2; -2.5]; [-2.5; 1]]%float i j = (c + 0)%float /\
               mget [[2; -2.5]; [-2.5; 1]]%float j i = (0 + c)%float).
Proof.
  assert (Hf : snd (fit log_example eig_example init X_slip)
               = Ok [[2; -2.5]; [-2.5; 1]]%float) by (vm_compute; reflexivity).
  assert (Hn : (Z.of_nat 3 < 2 ^ 53)%Z) by (vm_compute; reflexivity).
  exact (proj2 (proj2 (proj2 (proj2
           (fit_assembly log_example eig_example init X_slip 3 2 eq_refl Hn)))) _ Hf).
Defined.
